(** * marvin.beta.assistants.runs: the client-side control loop of a run

    A shallow embedding of [src/marvin/beta/assistants/runs.py].  The
    [Run] object is a record, its methods are functions over it; the
    asynchronous methods that talk to the hosted service are
    computations in a small state-and-exception monad whose state is
    the [Run] object together with the trace of external calls made so
    far.  The hosted service, the event handlers, the assistant's hooks
    and the local tool functions are external collaborators: they are
    given by an environment record [Env]. *)

From Stdlib Require Import ZArith Lia.
From stdpp Require Import base option list strings gmap sorting.

Local Open Scope string_scope.
Local Open Scope Z_scope.
Local Open Scope list_scope.

(** ** Data model *)

(** [Any]-typed payloads (the data carried by [CancelRun], [Run.data]). *)
Definition Data := string.

(** [marvin.types.Tool]: a type tag and, for function tools, the name of
    the function. *)
Record Tool := mkTool {
  tool_type : string;
  tool_function : option string
}.

(** [openai.types.beta.threads.Message], as far as this module reads it. *)
Record Message := mkMessage {
  message_id : string;
  message_created_at : Z;
  message_content : string
}.

(** [openai.types.beta.threads.runs.RunStep]. *)
Record OpenAIRunStep := mkRunStep {
  step_id : string;
  step_created_at : Z;
  step_details : string
}.

(** [tool_call.function] is a name and a JSON string of arguments. *)
Record ToolCall := mkToolCall {
  tool_call_id_of : string;
  function_name : string;
  function_arguments : string
}.

(** [run.required_action]: its [type] and
    [submit_tool_outputs.tool_calls]. *)
Record RequiredAction := mkRequiredAction {
  action_type : string;
  tool_calls : list ToolCall
}.

(** [openai.types.beta.threads.run.Run]. *)
Record OpenAIRun := mkOpenAIRun {
  run_id : string;
  status : string;
  required_action : option RequiredAction;
  last_error : option string
}.

Record Thread := mkThread { thread_id : string }.

(** The [Assistant]: its id and what its [get_instructions()] and
    [get_tools()] return. *)
Record Assistant := mkAssistant {
  assistant_id : string;
  assistant_instructions : option string;
  assistant_tools : list Tool
}.

(** *** Insertion-ordered dictionaries

    [_messages] and [_steps] are Python dicts keyed by id.  A Python
    dict iterates in insertion order, and assigning to a key that is
    present keeps its position. *)
Definition dict (V : Type) := list (string * V).

Fixpoint dict_set {V} (d : dict V) (k : string) (v : V) : dict V :=
  match d with
  | [] => [(k, v)]
  | (k', v') :: d' =>
      if decide (k' = k) then (k', v) :: d' else (k', v') :: dict_set d' k v
  end.

Fixpoint dict_get {V} (d : dict V) (k : string) : option V :=
  match d with
  | [] => None
  | (k', v') :: d' => if decide (k' = k) then Some v' else dict_get d' k
  end.

(** [d.update(other)]: every item of [other], in its order, is assigned
    into [d]. *)
Definition dict_update {V} (d other : dict V) : dict V :=
  fold_left (fun acc kv => dict_set acc kv.1 kv.2) other d.

(** The comprehension [{x.id: x for x in xs}]. *)
Definition dict_by_id {V} (id : V -> string) (xs : list V) : dict V :=
  fold_left (fun acc x => dict_set acc (id x) x) xs [].

Definition dict_values {V} (d : dict V) : list V := map snd d.
Definition dict_keys {V} (d : dict V) : list string := map fst d.

(** *** [sorted(xs, key=...)]

    Python's [sorted] is stable: elements with equal keys keep their
    relative order.  Insertion of each element in front of the sorted
    tail, before the first element whose key is not smaller, computes
    the stable sort. *)
Fixpoint insert_by {V} (key : V -> Z) (x : V) (l : list V) : list V :=
  match l with
  | [] => [x]
  | y :: l' =>
      if Z.leb (key x) (key y) then x :: y :: l' else y :: insert_by key x l'
  end.

Fixpoint sorted {V} (key : V -> Z) (l : list V) : list V :=
  match l with
  | [] => []
  | x :: l' => insert_by key x (sorted key l')
  end.

(** *** The [Run] object *)
Record Run := mkRun {
  thread : Thread;
  assistant : Assistant;
  _messages : dict Message;
  _steps : dict OpenAIRunStep;
  instructions : option string;
  additional_instructions : option string;
  tools : option (list Tool);
  additional_tools : option (list Tool);
  run : option OpenAIRun;
  data : option Data
}.

Definition set_run (self : Run) (r : option OpenAIRun) : Run :=
  mkRun (thread self) (assistant self) (_messages self) (_steps self)
        (instructions self) (additional_instructions self)
        (tools self) (additional_tools self) r (data self).

Definition set_data (self : Run) (d : option Data) : Run :=
  mkRun (thread self) (assistant self) (_messages self) (_steps self)
        (instructions self) (additional_instructions self)
        (tools self) (additional_tools self) (run self) d.

Definition set__messages (self : Run) (m : dict Message) : Run :=
  mkRun (thread self) (assistant self) m (_steps self)
        (instructions self) (additional_instructions self)
        (tools self) (additional_tools self) (run self) (data self).

Definition set__steps (self : Run) (s : dict OpenAIRunStep) : Run :=
  mkRun (thread self) (assistant self) (_messages self) s
        (instructions self) (additional_instructions self)
        (tools self) (additional_tools self) (run self) (data self).

(** [Run.__init__]: the private dicts start empty; [messages], when
    given, are recorded by id. *)
Definition Run_init (messages : option (list Message))
    (thread : Thread) (assistant : Assistant)
    (instructions additional_instructions : option string)
    (tools additional_tools : option (list Tool))
    (run : option OpenAIRun) (data : option Data) : Run :=
  let self :=
    mkRun thread assistant [] [] instructions additional_instructions
          tools additional_tools run data in
  match messages with
  | Some ms =>
      set__messages self (dict_update (_messages self) (dict_by_id message_id ms))
  | None => self
  end.

(** The [messages] and [steps] properties. *)
Definition messages (self : Run) : list Message :=
  sorted message_created_at (dict_values (_messages self)).

Definition steps (self : Run) : list OpenAIRunStep :=
  sorted step_created_at (dict_values (_steps self)).

(** ** Run-time configuration *)

(** [sep.join(parts)]. *)
Fixpoint str_join (sep : string) (parts : list string) : string :=
  match parts with
  | [] => ""
  | [p] => p
  | p :: ps => p +:+ sep +:+ str_join sep ps
  end.

Definition newline : string := String (Ascii.ascii_of_nat 10%nat) EmptyString.

(** [x or ""] on an optional string: [None] and the empty string are
    falsy. *)
Definition or_empty (x : option string) : string :=
  match x with
  | None => ""
  | Some s => if decide (s = "") then "" else s
  end.

Definition get_instructions (self : Run) : string :=
  let instructions :=
    match instructions self with
    | None => or_empty (assistant_instructions (assistant self))
    | Some i => i
    end in
  match additional_instructions self with
  | Some extra => str_join (newline +:+ newline) [instructions; extra]
  | None => instructions
  end.

Definition get_tools (self : Run) : list Tool :=
  let tools0 : list Tool := [] in
  let tools1 :=
    match tools self with
    | None => tools0 ++ assistant_tools (assistant self)
    | Some ts => tools0 ++ ts
    end in
  match additional_tools self with
  | Some extra => tools1 ++ extra
  | None => tools1
  end.

(** The values [run_kwargs] can hold. *)
Inductive KwArg :=
| KwInstructions (s : string)
| KwTools (ts : list Tool).

(** The [run_kwargs] dict built at the start of [run_async]. *)
Definition run_kwargs (self : Run) : gmap string KwArg :=
  let kw0 : gmap string KwArg := ∅ in
  let kw1 :=
    if bool_decide (instructions self ≠ None ∨ additional_instructions self ≠ None)
    then <["instructions" := KwInstructions (get_instructions self)]> kw0
    else kw0 in
  if bool_decide (tools self ≠ None ∨ additional_tools self ≠ None)
  then <["tools" := KwTools (get_tools self)]> kw1
  else kw1.

(** ** Exceptions and tool outputs *)

(** The exceptions that occur: [CancelRun] with its data, the two
    built-in errors the methods meet, any other error of a local tool
    function, the errors raised by the collaborators (client, handlers,
    hooks), and the exceptions that are not of class [Exception]
    ([SystemExit], [KeyboardInterrupt], [asyncio.CancelledError]). *)
Inductive exn :=
| CancelRun (data : option Data)
| ValueError (msg : string)
| AttributeError (msg : string)
| ToolError (msg : string)
| ExternalError (msg : string)
| BaseException (msg : string).

(** [str(exc)]. *)
Definition exn_str (e : exn) : string :=
  match e with
  | CancelRun d => default "" d
  | ValueError m | AttributeError m | ToolError m | ExternalError m
  | BaseException m => m
  end.

Definition is_CancelRun (e : exn) : bool :=
  match e with CancelRun _ => true | _ => false end.

(** [isinstance(e, Exception)]: what an [except Exception] clause
    catches. *)
Definition is_Exception (e : exn) : bool :=
  match e with BaseException _ => false | _ => true end.

(** What running a local tool function does: it returns a value (with
    [return_string=True], a string or [None]) or raises. *)
Inductive ToolResult :=
| Returned (v : option string)
| Raised (e : exn).

(** [dict(tool_call_id=..., output=...)]. *)
Record ToolOutput := mkToolOutput {
  tool_call_id : string;
  output : string
}.

(** The values [get_tool_outputs] hands back. *)
Inductive ToolOutputsResult :=
| TupleNoneNone
| PyNone
| OutputList (l : list ToolOutput).

(** The body of the [for tool_call in ...] loop of [get_tool_outputs],
    over the two lists it appends to.  [except CancelRun] raises again,
    [except Exception] turns the exception into the output; an
    exception that is not of class [Exception] meets no clause. *)
Fixpoint tool_outputs_loop (call : string -> string -> ToolResult)
    (pending tool_calls : list ToolCall) (tool_outputs : list ToolOutput)
    : exn + (list ToolCall * list ToolOutput) :=
  match pending with
  | [] => inr (tool_calls, tool_outputs)
  | tool_call :: rest =>
      match call (function_name tool_call) (function_arguments tool_call) with
      | Raised (CancelRun d) => inl (CancelRun d)
      | Raised (BaseException m) => inl (BaseException m)
      | result =>
          let output :=
            match result with
            | Returned v => v
            | Raised exc =>
                Some ("Error calling function " +:+ function_name tool_call
                        +:+ ": " +:+ exn_str exc)
            end in
          tool_outputs_loop call rest
            (tool_calls ++ [tool_call])
            (tool_outputs ++ [mkToolOutput (tool_call_id_of tool_call) (or_empty output)])
      end
  end.

(** ** The environment *)

(** The state of a handler once its stream is done. *)
Record Handler := mkHandler {
  current_run : OpenAIRun;
  final_messages : list Message;
  final_run_steps : list OpenAIRunStep
}.

(** External calls, in the order they are made. *)
Inductive Event :=
| GetOpenAIClient
| AssistantEnter
| AssistantExit
| NewHandler
| PreRunHook
| PostRunHook (self : Run)
| OnMessageDone (m : Message)
| OnException (e : exn)
| CreateAndStream (thread_id assistant_id : string) (kwargs : gmap string KwArg)
| SubmitToolOutputsStream (thread_id run_id : string) (tool_outputs : ToolOutputsResult)
| Retrieve (run_id thread_id : string)
| Cancel (run_id thread_id : string).

(** A request sent to the hosted service through the client. *)
Definition is_request (e : Event) : bool :=
  match e with
  | CreateAndStream _ _ _ | SubmitToolOutputsStream _ _ _
  | Retrieve _ _ | Cancel _ _ => true
  | _ => false
  end.

(** The collaborators.  Each answers as a function of the calls made
    before; an answer is a result or the message of the error raised.
    [call_function_tool] is [marvin.utilities.tools.call_function_tool]
    with [return_string=True]. *)
Record Env := mkEnv {
  call_function_tool : list Tool -> string -> string -> ToolResult;
  stream_answer : list Event -> Event -> string + Handler;
  retrieve_answer : list Event -> Event -> string + OpenAIRun;
  failure : list Event -> Event -> option string
}.

Definition get_tool_outputs (E : Env) (self : Run) (run : OpenAIRun)
    : exn + ToolOutputsResult :=
  if decide (status run ≠ "requires_action") then inr TupleNoneNone
  else
    match required_action run with
    | None => inl (AttributeError "'NoneType' object has no attribute 'type'")
    | Some action =>
        if decide (action_type action = "submit_tool_outputs") then
          let tools := get_tools self in
          match tool_outputs_loop (call_function_tool E tools) (tool_calls action) [] [] with
          | inl e => inl e
          | inr (_, tool_outputs) => inr (OutputList tool_outputs)
          end
        else inr PyNone
    end.

(** ** The monad of the asynchronous methods *)

Record State := mkState {
  self : Run;
  trace : list Event
}.

(** A computation finishes with a value, raises, or is cut off because
    its loop was given too few rounds. *)
Inductive Res (A : Type) :=
| Done (a : A)
| Raise (e : exn)
| CutOff.
Arguments Done {A} a.
Arguments Raise {A} e.
Arguments CutOff {A}.

Definition M (A : Type) := State -> State * Res A.

Definition ret {A} (a : A) : M A := fun s => (s, Done a).

Definition bind {A B} (m : M A) (k : A -> M B) : M B := fun s =>
  match m s with
  | (s', Done a) => k a s'
  | (s', Raise e) => (s', Raise e)
  | (s', CutOff) => (s', CutOff)
  end.

Notation "'let!' x ':=' m 'in' k" := (bind m (fun x => k))
  (at level 10, x name, m at level 100, k at level 200).
Notation "m ;;; k" := (bind m (fun _ => k))
  (at level 100, k at level 200, right associativity).

Definition raise {A} (e : exn) : M A := fun s => (s, Raise e).
Definition cut_off {A} : M A := fun s => (s, CutOff).
Definition get_self : M Run := fun s => (s, Done (self s)).
Definition modify_self (f : Run -> Run) : M unit :=
  fun s => (mkState (f (self s)) (trace s), Done tt).
Definition lift {A} (r : exn + A) : M A :=
  match r with inl e => raise e | inr a => ret a end.

Definition try_except {A} (body : M A) (handler : exn -> M A) : M A := fun s =>
  match body s with
  | (s', Raise e) => handler e s'
  | out => out
  end.

Fixpoint for_each {A} (xs : list A) (f : A -> M unit) : M unit :=
  match xs with
  | [] => ret tt
  | x :: xs' => f x ;;; for_each xs' f
  end.

Section Methods.
Variable E : Env.

Definition record (e : Event) (s : State) : State :=
  mkState (self s) (trace s ++ [e]).

(** A call whose result is not used. *)
Definition perform (e : Event) : M unit := fun s =>
  match failure E (trace s) e with
  | Some msg => (record e s, Raise (ExternalError msg))
  | None => (record e s, Done tt)
  end.

(** A streamed request, drained through a handler. *)
Definition request_stream (e : Event) : M Handler := fun s =>
  match stream_answer E (trace s) e with
  | inl msg => (record e s, Raise (ExternalError msg))
  | inr h => (record e s, Done h)
  end.

Definition request_retrieve (e : Event) : M OpenAIRun := fun s =>
  match retrieve_answer E (trace s) e with
  | inl msg => (record e s, Raise (ExternalError msg))
  | inr r => (record e s, Done r)
  end.

(** [with self.assistant: body]: the exit hook runs however the body
    ends. *)
Definition with_assistant {A} (body : M A) : M A := fun s =>
  match perform AssistantEnter s with
  | (s1, Done _) =>
      match body s1 with
      | (s2, CutOff) => (s2, CutOff)
      | (s2, out) =>
          match perform AssistantExit s2 with
          | (s3, Done _) => (s3, out)
          | (s3, Raise e) => (s3, Raise e)
          | (s3, CutOff) => (s3, CutOff)
          end
      end
  | (s1, Raise e) => (s1, Raise e)
  | (s1, CutOff) => (s1, CutOff)
  end.

Definition refresh_async : M unit :=
  let! self := get_self in
  match run self with
  | None => raise (ValueError "Run has not been created yet.")
  | Some r =>
      perform GetOpenAIClient ;;;
      let! r' := request_retrieve (Retrieve (run_id r) (thread_id (thread self))) in
      modify_self (fun self => set_run self (Some r'))
  end.

Definition cancel_async : M unit :=
  let! self := get_self in
  match run self with
  | None => raise (ValueError "Run has not been created yet.")
  | Some r =>
      perform GetOpenAIClient ;;;
      perform (Cancel (run_id r) (thread_id (thread self))) ;;;
      refresh_async
  end.

(** The body of both [async with ... as stream] blocks, after
    [until_done]. *)
Definition absorb (handler : Handler) : M unit :=
  modify_self (fun self => set_run self (Some (current_run handler))) ;;;
  modify_self (fun self =>
    set__messages self
      (dict_update (_messages self) (dict_by_id message_id (final_messages handler)))) ;;;
  modify_self (fun self =>
    set__steps self
      (dict_update (_steps self) (dict_by_id step_id (final_run_steps handler)))).

(** One round of the [while] loop of [run_async]: the tool outputs
    are computed and submitted through a new handler, whose stream is
    drained. *)
Definition loop_round (handler : Handler) : M Handler :=
  let! self := get_self in
  let! tool_outputs := lift (get_tool_outputs E self (current_run handler)) in
  perform NewHandler ;;;
  let! self := get_self in
  match run self with
  | None => raise (AttributeError "'NoneType' object has no attribute 'id'")
  | Some r =>
      let! handler' := request_stream
        (SubmitToolOutputsStream (thread_id (thread self)) (run_id r) tool_outputs) in
      absorb handler' ;;;
      ret handler'
  end.

(** The [while] loop, for at most [rounds] rounds. *)
Fixpoint tool_loop (rounds : nat) (handler : Handler) : M Handler :=
  if decide (status (current_run handler) ∈ ["requires_action"]) then
    match rounds with
    | O => cut_off
    | S rounds' =>
        let! handler' := loop_round handler in
        tool_loop rounds' handler'
    end
  else ret handler.

(** The [try] block of [run_async]. *)
Definition run_body (rounds : nat) (kwargs : gmap string KwArg) : M Handler :=
  perform PreRunHook ;;;
  let! self := get_self in
  for_each (messages self) (fun msg => perform (OnMessageDone msg)) ;;;
  let! self := get_self in
  let! handler := request_stream
    (CreateAndStream (thread_id (thread self)) (assistant_id (assistant self)) kwargs) in
  absorb handler ;;;
  tool_loop rounds handler.

(** The two [except] clauses; an exception that is not of class
    [Exception] meets neither and leaves the [try] statement. *)
Definition run_except (exc : exn) : M unit :=
  match exc with
  | CancelRun d =>
      cancel_async ;;;
      modify_self (fun self => set_data self d)
  | BaseException _ => raise exc
  | _ =>
      perform (OnException exc) ;;;
      raise exc
  end.

(** The body of [with self.assistant:]. *)
Definition run_in_assistant (rounds : nat) (kwargs : gmap string KwArg)
    : M unit :=
  perform NewHandler ;;;
  try_except (run_body rounds kwargs ;;; ret tt) run_except ;;;
  let! self := get_self in
  match run self with
  | None => raise (AttributeError "'NoneType' object has no attribute 'status'")
  | Some _ => perform (PostRunHook self)
  end.

Definition run_async (rounds : nat) : M Run :=
  perform GetOpenAIClient ;;;
  let! self := get_self in
  let kwargs := run_kwargs self in
  match run self with
  | Some _ =>
      raise (ValueError "This run object was provided an ID; can not create a new run.")
  | None =>
      with_assistant (run_in_assistant rounds kwargs) ;;;
      get_self
  end.
End Methods.

(** ** Reading of a tool call's outcome

    The entry that one tool call contributes to the list of outputs,
    written from the outcome of the call. *)
Definition call_of (E : Env) (self : Run) (tc : ToolCall) : ToolResult :=
  call_function_tool E (get_tools self) (function_name tc) (function_arguments tc).

Definition error_output (tc : ToolCall) (exc : exn) : string :=
  "Error calling function " +:+ function_name tc +:+ ": " +:+ exn_str exc.

Definition entry_of (result : ToolResult) (tc : ToolCall) : ToolOutput :=
  mkToolOutput (tool_call_id_of tc)
    match result with
    | Returned v => default "" v
    | Raised exc => error_output tc exc
    end.

(** The call raises an exception that leaves [get_tool_outputs]:
    [CancelRun], or one that is not of class [Exception]. *)
Definition escapes (result : ToolResult) : Prop :=
  ∃ exc, result = Raised exc
         ∧ (is_CancelRun exc = true ∨ is_Exception exc = false).

(** ** Invariants of the recorded messages and steps *)

(** The shape every [_messages] and [_steps] dict has: no key occurs
    twice and every value sits under its own id. *)
Definition dict_wf {V} (id : V → string) (d : dict V) : Prop :=
  NoDup (dict_keys d) ∧ Forall (λ kv, kv.1 = id kv.2) d.

Definition run_wf (self : Run) : Prop :=
  dict_wf message_id (_messages self) ∧ dict_wf step_id (_steps self).


(** ** A program logic for the methods

    [hoare P m Q]: from a state that satisfies [P], the computation [m]
    ends in a state and with an outcome that satisfy [Q]. *)
Definition hoare {A} (P : State → Prop) (m : M A)
    (Q : Res A → State → Prop) : Prop :=
  ∀ s, P s → Q (m s).2 (m s).1.

(** The postcondition that passes exceptions and cut-offs on to [Q]. *)
Definition passing {A B} (Q1 : A → State → Prop) (Q : Res B → State → Prop)
    : Res A → State → Prop :=
  λ r s,
    match r with
    | Done a => Q1 a s
    | Raise e => Q (Raise e) s
    | CutOff => Q CutOff s
    end.

(** State invariants:

    [preserves I m]: however [m] ends, it keeps [I]. *)
Definition preserves {A} (I : State → Prop) (m : M A) : Prop :=
  hoare I m (λ _ s, I s).

(** What the [try] block can end with: a [CancelRun] is raised only
    once [self.run] is set, and no [ValueError] is raised. *)
Definition try_post {A} (r : Res A) (s : State) : Prop :=
  match r with
  | Raise (CancelRun _) => run (self s) ≠ None
  | Raise (ValueError _) => False
  | _ => True
  end.

(** The outcome is not a raised [ValueError]. *)
Definition no_value_error {A} (r : Res A) : Prop :=
  match r with
  | Raise (ValueError _) => False
  | _ => True
  end.

(** The collaborators other than the streams and the local functions
    answer every call. *)
Definition answers (E : Env) : Prop :=
  (∀ history e, failure E history e = None)
  ∧ (∀ history e, ∃ r, retrieve_answer E history e = inr r).

(** ** Sample collaborators

    A small environment on which the methods can be run: four local
    functions, a service that asks once for tool outputs and then
    completes the run, and collaborators that always answer. *)
Definition sample_tool (name : string) : Tool := mkTool "function" (Some name).

Definition sample_call_function_tool (tools : list Tool) (name args : string)
    : ToolResult :=
  if decide (Some name ∈ map tool_function tools) then
    if decide (name = "add") then Returned (Some "3")
    else if decide (name = "noop") then Returned None
    else if decide (name = "stop") then Raised (CancelRun (Some "enough"))
    else Raised (ValueError "bad input")
  else Raised (ToolError ("Could not find function " +:+ name)).

Definition sample_waiting (calls : list ToolCall) : OpenAIRun :=
  mkOpenAIRun "run_1" "requires_action"
    (Some (mkRequiredAction "submit_tool_outputs" calls)) None.

Definition sample_completed : OpenAIRun :=
  mkOpenAIRun "run_1" "completed" None None.

Definition sample_cancelled : OpenAIRun :=
  mkOpenAIRun "run_1" "cancelled" None None.

Definition sample_other_action : OpenAIRun :=
  mkOpenAIRun "run_1" "requires_action" (Some (mkRequiredAction "other" [])) None.

Definition sample_stream (calls : list ToolCall) (history : list Event)
    (request : Event) : string + Handler :=
  match request with
  | CreateAndStream _ _ _ =>
      inr (mkHandler (sample_waiting calls)
             [mkMessage "msg_1" 20 "Let me compute."]
             [mkRunStep "step_1" 21 "tool_calls"])
  | SubmitToolOutputsStream _ _ _ =>
      inr (mkHandler sample_completed
             [mkMessage "msg_2" 30 "The sum is 3."; mkMessage "msg_1" 20 "Computing."]
             [mkRunStep "step_2" 31 "message_creation"])
  | _ => inl "not a streamed request"
  end.

Definition sample_env (calls : list ToolCall) : Env :=
  mkEnv sample_call_function_tool (sample_stream calls)
    (fun _ _ => inr sample_cancelled) (fun _ _ => None).

Definition sample_calls : list ToolCall :=
  [mkToolCall "call_1" "add" "{}"; mkToolCall "call_2" "boom" "{}";
   mkToolCall "call_3" "noop" "{}"].

Definition sample_calls_ok : list ToolCall :=
  [mkToolCall "call_1" "add" "{}"; mkToolCall "call_3" "noop" "{}"].

Definition sample_calls_stop : list ToolCall :=
  [mkToolCall "call_1" "add" "{}"; mkToolCall "call_4" "stop" "{}";
   mkToolCall "call_3" "noop" "{}"].

Definition sample_self : Run :=
  Run_init (Some [mkMessage "msg_0" 10 "What is 1 + 2?"])
    (mkThread "thread_1")
    (mkAssistant "asst_1" (Some "Be brief.") [sample_tool "add"])
    None (Some "Use the tools.")
    None (Some [sample_tool "noop"; sample_tool "stop"; sample_tool "boom"])
    None None.

Definition sample_state : State := mkState sample_self [].

(** A run with replacement instructions and tools, and a run that has
    already been created on the service. *)
Definition sample_self_replaced : Run :=
  Run_init None (mkThread "thread_1")
    (mkAssistant "asst_1" (Some "Be brief.") [sample_tool "add"])
    (Some "Only this.") None (Some [sample_tool "noop"]) None None None.

Definition sample_state_created : State :=
  mkState (set_run sample_self (Some sample_completed)) [].


(** ** The rest of the module *)

(** What [tools] and [additional_tools] may be given as: a [Tool] or a
    Python callable. *)
Inductive ToolInput (F : Type) :=
| GivenTool (t : Tool)
| GivenFunction (f : F).
Arguments GivenTool {F} t.
Arguments GivenFunction {F} f.

(** The validator [format_tools] of the two fields;
    [tool_from_function] is [marvin.utilities.tools.tool_from_function].
    Without the [if] branch the method returns [None]. *)
Definition format_tools {F} (tool_from_function : F → Tool)
    (tools : option (list (ToolInput F))) : option (list Tool) :=
  match tools with
  | Some tools =>
      Some (map (λ tool,
                   match tool with
                   | GivenTool t => t
                   | GivenFunction f => tool_from_function f
                   end) tools)
  | None => None
  end.

(** The fields of a [Run] that configure it. *)
Definition config (self : Run)
    : Thread * Assistant * option string * option string
      * option (list Tool) * option (list Tool) :=
  (thread self, assistant self, instructions self,
   additional_instructions self, tools self, additional_tools self).

(** The events a computation has added to the trace [t0] all satisfy
    [PE]. *)
Definition added (t0 : list Event) (PE : Event → Prop) (s : State) : Prop :=
  ∃ new, trace s = t0 ++ new ∧ Forall PE new.

(** A request that goes to the thread [T], a creation request that
    names the assistant [A], a submission that carries what
    [get_tool_outputs] returns for a run that requires action. *)
Definition well_addressed (T : Thread) (A : Assistant) (e : Event) : Prop :=
  match e with
  | CreateAndStream t a _ => t = thread_id T ∧ a = assistant_id A
  | SubmitToolOutputsStream t _ outs => t = thread_id T ∧ outs ≠ TupleNoneNone
  | Retrieve _ t | Cancel _ t => t = thread_id T
  | _ => True
  end.

(** A service that cannot be reached: every stream fails. *)
Definition sample_env_offline : Env :=
  mkEnv sample_call_function_tool (fun _ _ => inl "connection lost")
    (fun _ _ => inr sample_cancelled) (fun _ _ => None).

(** A service that refuses to cancel. *)
Definition sample_env_no_cancel : Env :=
  mkEnv sample_call_function_tool (sample_stream sample_calls_stop)
    (fun _ _ => inr sample_cancelled)
    (fun _ e => match e with Cancel _ _ => Some "cannot cancel" | _ => None end).

(** The service refuses to cancel, with the error [msg]; every other
    call whose result is not used is answered. *)
Definition refuses_cancel (E : Env) (msg : string) : Prop :=
  ∀ history e,
    failure E history e
    = match e with Cancel _ _ => Some msg | _ => None end.

(** The [Run] object once the results of a handler are recorded. *)
Definition absorbed (handler : Handler) (self : Run) : Run :=
  set__steps
    (set__messages (set_run self (Some (current_run handler)))
       (dict_update (_messages self) (dict_by_id message_id (final_messages handler))))
    (dict_update (_steps self) (dict_by_id step_id (final_run_steps handler))).

(** A service whose streams end with a completed run at once. *)
Definition sample_env_direct : Env :=
  mkEnv sample_call_function_tool
    (fun _ _ =>
       inr (mkHandler sample_completed
              [mkMessage "msg_1" 20 "3."] [mkRunStep "step_1" 21 "message_creation"]))
    (fun _ _ => inr sample_cancelled) (fun _ _ => None).




(** The fields of a [Run] that configure it, the assistant apart. *)
Definition own_config (self : Run)
    : Thread * option string * option string
      * option (list Tool) * option (list Tool) :=
  (thread self, instructions self, additional_instructions self,
   tools self, additional_tools self).

(** * Properties *)

(** ** Configuration *)

Lemma or_empty_default (x : option string) : or_empty x = default "" x.
Proof.
  destruct x as [s|]; simpl; [|done].
  destruct (decide (s = "")) as [->|]; done.
Qed.

(** C4. [get_instructions] takes the replacement instructions of the
    run when they are set and otherwise the assistant's instructions
    (the empty string when the assistant has none); when additional
    instructions are set the result is that base, a blank line
    (two newlines) and the additional instructions. *)
Theorem get_instructions_spec (self : Run) :
  let base :=
    match instructions self with
    | Some i => i
    | None =>
        match assistant_instructions (assistant self) with
        | Some a => a
        | None => ""
        end
    end in
  get_instructions self =
    match additional_instructions self with
    | Some extra => base +:+ newline +:+ newline +:+ extra
    | None => base
    end.
Proof.
  unfold get_instructions. rewrite or_empty_default.
  destruct (instructions self) as [i|], (additional_instructions self) as [x|],
    (assistant_instructions (assistant self)) as [a|]; simpl; done.
Qed.

(** C5. [get_tools] is the assistant's tools when the run has no
    replacement tools and the replacement tools otherwise, followed by
    the additional tools when set; with replacement tools the result
    does not depend on the assistant. *)
Theorem get_tools_spec (self : Run) :
  get_tools self =
    match tools self with
    | None => assistant_tools (assistant self)
    | Some ts => ts
    end ++ default [] (additional_tools self)
  ∧ ∀ (ts : list Tool) (a' : Assistant),
      tools self = Some ts →
      get_tools self
      = get_tools (mkRun (thread self) a' (_messages self) (_steps self)
                     (instructions self) (additional_instructions self)
                     (tools self) (additional_tools self) (run self) (data self))
      ∧ get_tools self = ts ++ default [] (additional_tools self).
Proof.
  split.
  - unfold get_tools.
    destruct (tools self), (additional_tools self); simpl; by rewrite ?app_nil_r.
  - intros ts a' Hts. unfold get_tools; simpl. rewrite Hts.
    destruct (additional_tools self); simpl; by rewrite ?app_nil_r.
Qed.

(** ** Tool outputs *)

Section ToolOutputs.
Variable call : string -> string -> ToolResult.

Let result_of (tc : ToolCall) : ToolResult :=
  call (function_name tc) (function_arguments tc).

(** One round of the loop when the exception of the call, if any, is
    caught. *)
Lemma tool_outputs_loop_step tc rest done_calls outs :
  ¬ escapes (result_of tc) →
  tool_outputs_loop call (tc :: rest) done_calls outs
  = tool_outputs_loop call rest (done_calls ++ [tc])
      (outs ++ [entry_of (result_of tc) tc]).
Proof.
  intros Hnc. unfold entry_of, result_of in *. simpl.
  destruct (call (function_name tc) (function_arguments tc)) as [v|e] eqn:Hr.
  - by rewrite or_empty_default.
  - destruct e; try done.
    + exfalso. apply Hnc. eexists. split; [done|]. by left.
    + exfalso. apply Hnc. eexists. split; [done|]. by right.
Qed.

(** Without an escaping exception the loop visits every pending call,
    in order, and appends one entry for each. *)
Lemma tool_outputs_loop_complete pending : ∀ done_calls outs,
  Forall (λ tc, ¬ escapes (result_of tc)) pending →
  tool_outputs_loop call pending done_calls outs
  = inr (done_calls ++ pending,
         outs ++ map (λ tc, entry_of (result_of tc) tc) pending).
Proof.
  induction pending as [|tc rest IH]; intros done_calls outs Hall.
  - simpl. by rewrite !app_nil_r.
  - inversion Hall as [|? ? Htc Hrest]; subst.
    rewrite tool_outputs_loop_step by done.
    rewrite IH by done. simpl.
    by rewrite <- !app_assoc.
Qed.

End ToolOutputs.

Lemma get_tool_outputs_submit E self run action :
  status run = "requires_action" →
  required_action run = Some action →
  action_type action = "submit_tool_outputs" →
  get_tool_outputs E self run
  = match tool_outputs_loop (call_function_tool E (get_tools self))
            (tool_calls action) [] [] with
    | inl e => inl e
    | inr (_, tool_outputs) => inr (OutputList tool_outputs)
    end.
Proof.
  intros Hst Hra Hty. unfold get_tool_outputs.
  rewrite Hra. destruct (decide _) as [Hne|_]; [by destruct Hne|].
  by rewrite decide_True.
Qed.

(** C2. For a run that requires action of type submit_tool_outputs,
    [get_tool_outputs] returns a list with one entry per tool call, in
    the order of the calls; each entry carries the id of its call, and
    its output is the string the named local function returned for the
    call's arguments, the empty string when it returned [None] or an
    empty string.  (No call raises an exception that leaves the method,
    that is [CancelRun] or one that is not of class [Exception]: that
    case ends the method with the exception.) *)
Theorem get_tool_outputs_one_entry_per_call E self run action :
  status run = "requires_action" →
  required_action run = Some action →
  action_type action = "submit_tool_outputs" →
  (∀ tc, tc ∈ tool_calls action → ¬ escapes (call_of E self tc)) →
  ∃ outs,
    get_tool_outputs E self run = inr (OutputList outs)
    ∧ length outs = length (tool_calls action)
    ∧ ∀ (i : nat) tc, tool_calls action !! i = Some tc →
        ∃ o, outs !! i = Some o
          ∧ tool_call_id o = tool_call_id_of tc
          ∧ ∀ v, call_of E self tc = Returned v →
              output o = match v with Some s => s | None => "" end.
Proof.
  intros Hst Hra Hty Hnc.
  rewrite (get_tool_outputs_submit _ _ _ _ Hst Hra Hty).
  rewrite tool_outputs_loop_complete by (by apply Forall_forall).
  simpl. eexists; split; [done|]. split; [by rewrite length_map|].
  intros i tc Hi. eexists. rewrite list_lookup_fmap, Hi. simpl.
  split; [done|]. split; [done|].
  intros v Hv. unfold call_of in Hv. rewrite Hv. by destruct v.
Qed.


(** C9. When the status is not "requires_action" the method returns the
    pair (None, None), which is not a list of outputs; when the status
    is "requires_action" and the type of the required action is not
    "submit_tool_outputs" it returns None. *)
Theorem get_tool_outputs_no_list E self run :
  (status run ≠ "requires_action" →
   get_tool_outputs E self run = inr TupleNoneNone
   ∧ ∀ l, get_tool_outputs E self run ≠ inr (OutputList l))
  ∧ (status run = "requires_action" →
     ∀ action, required_action run = Some action →
       action_type action ≠ "submit_tool_outputs" →
       get_tool_outputs E self run = inr PyNone).
Proof.
  unfold get_tool_outputs. split.
  - intros Hne. rewrite decide_True by done. split; [done|]. by intros l.
  - intros Hst action Hra Hty.
    rewrite decide_False by (by intros []). rewrite Hra.
    by rewrite decide_False.
Qed.


(** ** A program logic for the methods *)

Section Logic.
Context {A B : Type}.
Implicit Types (P : State → Prop) (Q : Res B → State → Prop).

Lemma hoare_consequence (P P' : State → Prop) (m : M A)
    (Q Q' : Res A → State → Prop) :
  hoare P' m Q' → (∀ s, P s → P' s) → (∀ r s, Q' r s → Q r s) →
  hoare P m Q.
Proof. intros H HP HQ s Hs. apply HQ, H, HP, Hs. Qed.

Lemma hoare_bind P (m : M A) (k : A → M B) (Q1 : A → State → Prop) Q :
  hoare P m (passing Q1 Q) →
  (∀ a, hoare (Q1 a) (k a) Q) →
  hoare P (bind m k) Q.
Proof.
  intros Hm Hk s Hs. specialize (Hm s Hs). unfold bind.
  destruct (m s) as [s' [a|e|]]; simpl in *; try done.
  by apply Hk.
Qed.

Lemma hoare_ret P (b : B) Q :
  (∀ s, P s → Q (Done b) s) → hoare P (ret b) Q.
Proof. intros H s Hs. by apply H. Qed.

Lemma hoare_raise P (e : exn) Q :
  (∀ s, P s → Q (Raise e) s) → hoare P (raise e) Q.
Proof. intros H s Hs. by apply H. Qed.

Lemma hoare_timeout P Q :
  (∀ s, P s → Q CutOff s) → hoare P cut_off Q.
Proof. intros H s Hs. by apply H. Qed.

Lemma hoare_lift P (r : exn + B) Q :
  (∀ s, P s → match r with inl e => Q (Raise e) s | inr b => Q (Done b) s end) →
  hoare P (lift r) Q.
Proof. intros H s Hs. specialize (H s Hs). by destruct r. Qed.

Lemma hoare_try_except P (body : M B) (handler : exn → M B)
    (X : exn → State → Prop) Q :
  hoare P body (λ r s, match r with Raise e => X e s | _ => Q r s end) →
  (∀ e, hoare (X e) (handler e) Q) →
  hoare P (try_except body handler) Q.
Proof.
  intros Hb Hh s Hs. specialize (Hb s Hs). unfold try_except.
  destruct (body s) as [s' [a|e|]]; simpl in *; try done.
  by apply Hh.
Qed.
End Logic.

Lemma hoare_get_self P (Q : Res Run → State → Prop) :
  (∀ s, P s → Q (Done (self s)) s) → hoare P get_self Q.
Proof. intros H s Hs. by apply H. Qed.

Lemma hoare_modify_self P f (Q : Res unit → State → Prop) :
  (∀ s, P s → Q (Done tt) (mkState (f (self s)) (trace s))) →
  hoare P (modify_self f) Q.
Proof. intros H s Hs. by apply H. Qed.

Section LogicEnv.
Variable E : Env.

Lemma hoare_perform P e (Q : Res unit → State → Prop) :
  (∀ s, P s →
     Q (Done tt) (record e s)
     ∧ ∀ msg, Q (Raise (ExternalError msg)) (record e s)) →
  hoare P (perform E e) Q.
Proof.
  intros H s Hs. destruct (H s Hs) as [Hd Hx]. unfold perform.
  destruct (failure E (trace s) e); simpl; auto.
Qed.

Lemma hoare_request_stream P e (Q : Res Handler → State → Prop) :
  (∀ s, P s →
     (∀ h, Q (Done h) (record e s))
     ∧ ∀ msg, Q (Raise (ExternalError msg)) (record e s)) →
  hoare P (request_stream E e) Q.
Proof.
  intros H s Hs. destruct (H s Hs) as [Hd Hx]. unfold request_stream.
  destruct (stream_answer E (trace s) e); simpl; auto.
Qed.

Lemma hoare_request_retrieve P e (Q : Res OpenAIRun → State → Prop) :
  (∀ s, P s →
     (∀ r, Q (Done r) (record e s))
     ∧ ∀ msg, Q (Raise (ExternalError msg)) (record e s)) →
  hoare P (request_retrieve E e) Q.
Proof.
  intros H s Hs. destruct (H s Hs) as [Hd Hx]. unfold request_retrieve.
  destruct (retrieve_answer E (trace s) e); simpl; auto.
Qed.

Lemma hoare_with_assistant {A} P (body : M A) (Q : Res A → State → Prop)
    (P1 : State → Prop) (Q1 : Res A → State → Prop) :
  hoare P (perform E AssistantEnter) (passing (λ _, P1) Q) →
  hoare P1 body (λ r s, match r with CutOff => Q CutOff s | _ => Q1 r s end) →
  (∀ r, hoare (Q1 r) (perform E AssistantExit)
          (λ r' s, match r' with
                   | Done _ => Q r s
                   | Raise e => Q (Raise e) s
                   | CutOff => Q CutOff s
                   end)) →
  hoare P (with_assistant E body) Q.
Proof.
  intros Hin Hb Hout s Hs. specialize (Hin s Hs). unfold with_assistant.
  destruct (perform E AssistantEnter s) as [s1 [[]|e|]]; simpl in *; try done.
  specialize (Hb s1 Hin).
  destruct (body s1) as [s2 [a|e|]]; simpl in *; try done.
  - specialize (Hout (Done a) s2 Hb).
    by destruct (perform E AssistantExit s2) as [s3 [[]|e|]].
  - specialize (Hout (Raise e) s2 Hb).
    by destruct (perform E AssistantExit s2) as [s3 [[]|e'|]].
Qed.
End LogicEnv.

(** *** State invariants *)

Section Preserves.
Variable E : Env.
Variable I : State → Prop.

Lemma preserves_bind {A B} (m : M A) (k : A → M B) :
  preserves I m → (∀ a, preserves I (k a)) → preserves I (bind m k).
Proof.
  intros Hm Hk. apply hoare_bind with (Q1 := λ _ s, I s).
  - intros s Hs. specialize (Hm s Hs). unfold passing. by destruct (m s).2.
  - apply Hk.
Qed.

Lemma preserves_pure {A} (m : M A) :
  (∀ s, (m s).1 = s) → preserves I m.
Proof. intros H s Hs. by rewrite H. Qed.

Lemma preserves_modify_self f :
  (∀ s, I s → I (mkState (f (self s)) (trace s))) →
  preserves I (modify_self f).
Proof. intros H. by apply hoare_modify_self. Qed.

Lemma preserves_perform e :
  (∀ s, I s → I (record e s)) → preserves I (perform E e).
Proof. intros H. apply hoare_perform. intros s Hs. split; auto. Qed.

Lemma preserves_request_stream e :
  (∀ s, I s → I (record e s)) → preserves I (request_stream E e).
Proof. intros H. apply hoare_request_stream. intros s Hs. split; auto. Qed.

Lemma preserves_request_retrieve e :
  (∀ s, I s → I (record e s)) → preserves I (request_retrieve E e).
Proof. intros H. apply hoare_request_retrieve. intros s Hs. split; auto. Qed.

Lemma preserves_try_except {A} (body : M A) handler :
  preserves I body → (∀ e, preserves I (handler e)) →
  preserves I (try_except body handler).
Proof.
  intros Hb Hh. apply hoare_try_except with (X := λ _ s, I s).
  - intros s Hs. specialize (Hb s Hs). by destruct (body s).2.
  - apply Hh.
Qed.

Lemma preserves_with_assistant {A} (body : M A) :
  preserves I (perform E AssistantEnter) →
  preserves I (perform E AssistantExit) →
  preserves I body →
  preserves I (with_assistant E body).
Proof.
  intros Hin Hout Hb.
  apply hoare_with_assistant with (P1 := I) (Q1 := λ _ s, I s).
  - intros s Hs. specialize (Hin s Hs). unfold passing.
    by destruct (perform E AssistantEnter s).2.
  - intros s Hs. specialize (Hb s Hs). by destruct (body s).2.
  - intros r s Hs. specialize (Hout s Hs).
    by destruct (perform E AssistantExit s).2.
Qed.

Lemma preserves_for_each {A} (xs : list A) (f : A → M unit) :
  (∀ x, preserves I (f x)) → preserves I (for_each xs f).
Proof.
  intros Hf. induction xs as [|x xs IH]; simpl.
  - by apply preserves_pure.
  - apply preserves_bind; auto.
Qed.
End Preserves.

(** ** Dictionaries keyed by id *)


Section Dict.
Context {V : Type}.
Implicit Types (d : dict V) (k : string) (v : V).

Lemma dict_get_set d k v k' :
  dict_get (dict_set d k v) k'
  = if decide (k = k') then Some v else dict_get d k'.
Proof.
  induction d as [|[k0 v0] d IH]; simpl.
  - done.
  - destruct (decide (k0 = k)) as [->|Hne]; simpl.
    + by destruct (decide (k = k')).
    + rewrite IH. destruct (decide (k0 = k')) as [->|]; [|done].
      by rewrite decide_False by done.
Qed.

Lemma dict_keys_set d k v :
  dict_keys (dict_set d k v)
  = if decide (k ∈ dict_keys d) then dict_keys d else dict_keys d ++ [k].
Proof.
  unfold dict_keys. induction d as [|[k0 v0] d IH].
  - destruct (decide (k ∈ map fst [])) as [Hin|_]; [|done].
    by apply elem_of_nil in Hin.
  - cbn [dict_set]. destruct (decide (k0 = k)) as [->|Hne].
    + cbn [map fst]. destruct (decide (k ∈ k :: map fst d)) as [|Hnin]; [done|].
      exfalso. apply Hnin, elem_of_cons. by left.
    + cbn [map fst]. rewrite IH.
      destruct (decide (k ∈ map fst d)) as [Hin|Hnin];
        destruct (decide (k ∈ k0 :: map fst d)) as [Hin'|Hnin']; try done.
      * exfalso. apply Hnin', elem_of_cons. by right.
      * apply elem_of_cons in Hin' as [?|?]; congruence.
Qed.

Lemma dict_set_entries d k v kv :
  kv ∈ dict_set d k v → kv = (k, v) ∨ kv ∈ d.
Proof.
  induction d as [|[k0 v0] d IH]; simpl.
  - intros ->%list_elem_of_singleton. by left.
  - destruct (decide (k0 = k)) as [->|Hne].
    + intros [->|?]%elem_of_cons; [by left|]. right. by apply elem_of_cons; right.
    + intros [->|Hin]%elem_of_cons.
      * right. apply elem_of_cons; by left.
      * destruct (IH Hin); [by left|]. right. by apply elem_of_cons; right.
Qed.

Lemma dict_get_Some d k v :
  NoDup (dict_keys d) → dict_get d k = Some v ↔ (k, v) ∈ d.
Proof.
  unfold dict_keys. induction d as [|[k0 v0] d IH]; simpl; intros Hnd.
  - split; [done|]. by intros ?%elem_of_nil.
  - apply NoDup_cons in Hnd as [Hk0 Hnd].
    destruct (decide (k0 = k)) as [->|Hne].
    + split.
      * intros [= ->]. apply elem_of_cons; by left.
      * intros [[= ->]|Hin]%elem_of_cons; [done|].
        exfalso. apply Hk0. apply list_elem_of_fmap. by exists (k, v).
    + rewrite IH by done. split.
      * intros ?. by apply elem_of_cons; right.
      * by intros [[= -> ->]|?]%elem_of_cons.
Qed.

Variable id : V → string.

Lemma dict_wf_nil : dict_wf id [].
Proof. split; [apply NoDup_nil_2 | apply Forall_nil_2]. Qed.

Lemma dict_wf_set d v : dict_wf id d → dict_wf id (dict_set d (id v) v).
Proof.
  intros [Hnd Hid]. split.
  - rewrite dict_keys_set. destruct (decide _) as [|Hnin]; [done|].
    apply NoDup_app. split; [done|]. split.
    + intros k Hk ->%list_elem_of_singleton. done.
    + apply NoDup_singleton.
  - apply Forall_forall. intros kv [->|Hin]%dict_set_entries; [done|].
    by eapply Forall_forall in Hid.
Qed.

Lemma dict_wf_fold (xs : list V) : ∀ d,
  dict_wf id d →
  dict_wf id (fold_left (λ acc x, dict_set acc (id x) x) xs d).
Proof.
  induction xs as [|x xs IH]; intros d Hd; simpl; [done|].
  by apply IH, dict_wf_set.
Qed.

Lemma dict_wf_by_id (xs : list V) : dict_wf id (dict_by_id id xs).
Proof. apply dict_wf_fold, dict_wf_nil. Qed.

Lemma dict_wf_update d other :
  dict_wf id d → dict_wf id other → dict_wf id (dict_update d other).
Proof.
  intros Hd [_ Hother]. unfold dict_update.
  revert d Hd. induction other as [|[k v] other IH]; intros d Hd; simpl; [done|].
  apply Forall_cons in Hother as [Hk Hother]. simpl in Hk. subst k.
  by apply IH, dict_wf_set.
Qed.

(** Looking a key up after a run of assignments: the last assignment
    to the key wins, and other keys keep what they had. *)
Lemma dict_get_fold (xs : list V) k : ∀ d,
  dict_get (fold_left (λ acc x, dict_set acc (id x) x) xs d) k
  = match last (filter (λ x, id x = k) xs) with
    | Some x => Some x
    | None => dict_get d k
    end.
Proof.
  induction xs as [|x xs IH]; intros d; simpl; [done|].
  rewrite IH, dict_get_set. rewrite filter_cons.
  destruct (decide (id x = k)) as [Hk|Hk].
  - rewrite last_cons. by destruct (last (filter _ xs)).
  - done.
Qed.

Lemma dict_get_by_id (xs : list V) k :
  dict_get (dict_by_id id xs) k = last (filter (λ x, id x = k) xs).
Proof.
  unfold dict_by_id. rewrite dict_get_fold. simpl.
  by destruct (last _).
Qed.

Lemma dict_get_update d other k :
  NoDup (dict_keys other) →
  dict_get (dict_update d other) k
  = match dict_get other k with
    | Some v => Some v
    | None => dict_get d k
    end.
Proof.
  unfold dict_update, dict_keys.
  revert d. induction other as [|[k0 v0] other IH]; intros d Hnd; simpl; [done|].
  apply NoDup_cons in Hnd as [Hk0 Hnd].
  rewrite IH by done. rewrite dict_get_set. simpl.
  destruct (decide (k0 = k)) as [->|Hne]; [|done].
  destruct (dict_get other k) as [v|] eqn:Hget; [|done].
  exfalso. apply Hk0. apply dict_get_Some in Hget; [|done].
  apply list_elem_of_fmap. by exists (k, v).
Qed.

(** What [d.update({x.id: x for x in xs})] leaves under a key. *)
Lemma dict_get_update_by_id d (xs : list V) k :
  dict_get (dict_update d (dict_by_id id xs)) k
  = match last (filter (λ x, id x = k) xs) with
    | Some x => Some x
    | None => dict_get d k
    end.
Proof.
  rewrite dict_get_update by apply dict_wf_by_id.
  by rewrite dict_get_by_id.
Qed.


Lemma dict_wf_values d v :
  dict_wf id d → v ∈ dict_values d ↔ dict_get d (id v) = Some v.
Proof.
  intros Hwf. rewrite dict_get_Some by apply Hwf. unfold dict_values.
  rewrite list_elem_of_fmap. split.
  - intros ([k v'] & -> & Hin). simpl.
    destruct Hwf as [_ Hid]. eapply Forall_forall in Hid; [|done].
    simpl in Hid. by subst.
  - intros Hin. by exists (id v, v).
Qed.
End Dict.

(** ** Sorting by [created_at] *)
Section Sorted.
Context {V : Type}.
Variable key : V → Z.

Lemma insert_by_Permutation x l : insert_by key x l ≡ₚ x :: l.
Proof.
  induction l as [|y l IH]; simpl; [done|].
  destruct (Z.leb (key x) (key y)); [done|].
  rewrite IH. apply Permutation_swap.
Qed.

Lemma sorted_Permutation l : sorted key l ≡ₚ l.
Proof.
  induction l as [|x l IH]; simpl; [done|].
  by rewrite insert_by_Permutation, IH.
Qed.


End Sorted.

(** ** Invariants of the methods

    An invariant [I] of the state that survives the assignments the
    methods make to the [Run] object, and the recording of every event
    that satisfies [PE], survives the methods, whatever the
    collaborators answer. *)
Section Invariant.
Variable E : Env.
Variable I : State → Prop.
Variable PE : Event → Prop.
Hypothesis I_record : ∀ s e, PE e → I s → I (record e s).
Hypothesis I_set_run : ∀ s r,
  I s → I (mkState (set_run (self s) r) (trace s)).
Hypothesis I_set_data : ∀ s d,
  I s → I (mkState (set_data (self s) d) (trace s)).
Hypothesis I_set__messages : ∀ s ms,
  I s →
  I (mkState
       (set__messages (self s)
          (dict_update (_messages (self s)) (dict_by_id message_id ms)))
       (trace s)).
Hypothesis I_set__steps : ∀ s ss,
  I s →
  I (mkState
       (set__steps (self s)
          (dict_update (_steps (self s)) (dict_by_id step_id ss)))
       (trace s)).
Hypothesis PE_other : ∀ e,
  match e with CreateAndStream _ _ _ => True | _ => PE e end.

Local Ltac keeps :=
  repeat lazymatch goal with
    | |- ∀ _, _ => intro
    | |- preserves _ (bind _ _) => apply preserves_bind
    | |- preserves _ (perform _ ?e) =>
        apply preserves_perform; intros ? ?; apply I_record;
        [first [assumption | exact (PE_other e)] | assumption]
    | |- preserves _ (request_stream _ ?e) =>
        apply preserves_request_stream; intros ? ?; apply I_record;
        [first [assumption | exact (PE_other e)] | assumption]
    | |- preserves _ (request_retrieve _ ?e) =>
        apply preserves_request_retrieve; intros ? ?; apply I_record;
        [first [assumption | exact (PE_other e)] | assumption]
    | |- preserves _ (for_each _ _) => apply preserves_for_each
    | |- preserves _ (modify_self _) =>
        apply preserves_modify_self; intros ? ?;
        first [by apply I_set_run | by apply I_set_data
              | by apply I_set__messages | by apply I_set__steps]
    | |- preserves _ get_self => apply preserves_pure; done
    | |- preserves _ (ret _) => apply preserves_pure; done
    | |- preserves _ (raise _) => apply preserves_pure; done
    | |- preserves _ cut_off => apply preserves_pure; done
    | |- preserves _ (match run ?self with _ => _ end) => destruct (run self)
    end.

Lemma refresh_async_keeps : preserves I (refresh_async E).
Proof. unfold refresh_async. keeps. Qed.

Lemma cancel_async_keeps : preserves I (cancel_async E).
Proof. unfold cancel_async. keeps. apply refresh_async_keeps. Qed.

Lemma absorb_keeps h : preserves I (absorb h).
Proof. unfold absorb. keeps. Qed.

Lemma loop_round_keeps h : preserves I (loop_round E h).
Proof.
  unfold loop_round. keeps.
  - apply preserves_pure. intros s. by destruct (get_tool_outputs _ _ _).
  - apply absorb_keeps.
Qed.

Lemma tool_loop_keeps rounds : ∀ h, preserves I (tool_loop E rounds h).
Proof.
  induction rounds as [|rounds IH]; intros h; simpl;
    destruct (decide _); keeps.
  - apply loop_round_keeps.
  - apply IH.
Qed.

Lemma run_body_keeps rounds kwargs :
  (∀ t a, PE (CreateAndStream t a kwargs)) →
  preserves I (run_body E rounds kwargs).
Proof.
  intros Hkw. unfold run_body. keeps.
  - apply preserves_request_stream. intros s Hs. by apply I_record.
  - apply absorb_keeps.
  - apply tool_loop_keeps.
Qed.

Lemma run_except_keeps exc : preserves I (run_except E exc).
Proof. destruct exc; simpl; keeps. apply cancel_async_keeps. Qed.

Lemma run_in_assistant_keeps rounds kwargs :
  (∀ t a, PE (CreateAndStream t a kwargs)) →
  preserves I (run_in_assistant E rounds kwargs).
Proof.
  intros Hkw. unfold run_in_assistant. keeps.
  apply preserves_try_except; keeps.
  - by apply run_body_keeps.
  - apply run_except_keeps.
Qed.

Lemma with_assistant_keeps {A} (body : M A) :
  preserves I body → preserves I (with_assistant E body).
Proof. intros Hb. apply preserves_with_assistant; keeps. done. Qed.

Lemma run_async_keeps rounds :
  (∀ t a kw, PE (CreateAndStream t a kw)) →
  preserves I (run_async E rounds).
Proof.
  intros Hkw. unfold run_async. keeps.
  apply with_assistant_keeps. by apply run_in_assistant_keeps.
Qed.
End Invariant.


(** ** The recorded messages and steps *)

Section RunWf.
Variable E : Env.

Let I (s : State) : Prop := run_wf (self s).
Let PE (e : Event) : Prop := True.






End RunWf.

Lemma run_wf_init ms t a i ai ts ats r d :
  run_wf (Run_init ms t a i ai ts ats r d).
Proof.
  unfold Run_init. destruct ms as [ms|]; split; simpl;
    try apply dict_wf_nil.
  apply dict_wf_update; [apply dict_wf_nil | apply dict_wf_by_id].
Qed.


Lemma sorted_elem_of {V} (id : V → string) (key : V → Z) (d : dict V) v :
  dict_wf id d →
  v ∈ sorted key (dict_values d) ↔ dict_get d (id v) = Some v.
Proof.
  intros Hwf. rewrite sorted_Permutation. by apply dict_wf_values.
Qed.


(** ** The request that creates the run *)

Lemma either_set_decide {X Y} (a : option X) (b : option Y) :
  bool_decide (a ≠ None ∨ b ≠ None)
  = match a, b with None, None => false | _, _ => true end.
Proof.
  destruct a, b.
  - apply bool_decide_eq_true_2. by left.
  - apply bool_decide_eq_true_2. by left.
  - apply bool_decide_eq_true_2. by right.
  - apply bool_decide_eq_false_2. by intros [?|?].
Qed.

Lemma run_kwargs_instructions self :
  run_kwargs self !! "instructions"
  = match instructions self, additional_instructions self with
    | None, None => None
    | _, _ => Some (KwInstructions (get_instructions self))
    end.
Proof.
  unfold run_kwargs. rewrite !either_set_decide.
  destruct (instructions self), (additional_instructions self),
    (tools self), (additional_tools self);
    rewrite ?lookup_insert_ne by done; by rewrite ?lookup_insert_eq.
Qed.

Lemma run_kwargs_tools self :
  run_kwargs self !! "tools"
  = match tools self, additional_tools self with
    | None, None => None
    | _, _ => Some (KwTools (get_tools self))
    end.
Proof.
  unfold run_kwargs. rewrite !either_set_decide.
  destruct (instructions self), (additional_instructions self),
    (tools self), (additional_tools self);
    rewrite ?lookup_insert_eq; try done;
    rewrite ?lookup_insert_ne by done; done.
Qed.

Lemma run_kwargs_other self k :
  k ≠ "instructions" → k ≠ "tools" → run_kwargs self !! k = None.
Proof.
  intros Hi Ht. unfold run_kwargs. rewrite !either_set_decide.
  destruct (instructions self), (additional_instructions self),
    (tools self), (additional_tools self);
    by rewrite ?lookup_insert_ne by done.
Qed.

(** The events a computation adds carry no streamed-run creation
    request other than one with the arguments [K]. *)
Section CreateRequest.
Variable E : Env.
Variable t0 : list Event.
Variable K : gmap string KwArg.

Let PE (e : Event) : Prop := ∀ t a kw, e = CreateAndStream t a kw → kw = K.
Let I (s : State) : Prop := ∃ new, trace s = t0 ++ new ∧ Forall PE new.

Lemma create_request_record s e : PE e → I s → I (record e s).
Proof.
  intros He (new & Htr & Hall). exists (new ++ [e]). simpl. split.
  - by rewrite Htr, app_assoc.
  - apply Forall_app. split; [done|]. by apply Forall_singleton.
Qed.

Lemma create_request_other e :
  match e with CreateAndStream _ _ _ => True | _ => PE e end.
Proof. destruct e; try done; by intros t a kw. Qed.

Lemma run_async_rest_keeps rounds :
  preserves I (with_assistant E (run_in_assistant E rounds K) ;;; get_self).
Proof.
  apply preserves_bind; [|intros _; by apply preserves_pure].
  apply (with_assistant_keeps E I PE create_request_record create_request_other).
  apply (run_in_assistant_keeps E I PE); try done.
  - apply create_request_record.
  - apply create_request_other.
  - by intros t a t' a' kw [= _ _ ->].
Qed.
End CreateRequest.

(** ** Which exceptions leave the [try] block *)

Lemma tool_outputs_loop_raises call pending : ∀ done_calls outs e,
  tool_outputs_loop call pending done_calls outs = inl e →
  (∃ d, e = CancelRun d) ∨ (∃ m, e = BaseException m).
Proof.
  induction pending as [|tc rest IH]; intros done_calls outs e; simpl; [done|].
  destruct (call (function_name tc) (function_arguments tc))
    as [v|[d|m|m|m|m|m]]; try (by apply IH).
  - intros [= <-]. left. by eexists.
  - intros [= <-]. right. by eexists.
Qed.

Lemma get_tool_outputs_raises E self run e :
  get_tool_outputs E self run = inl e →
  (∃ d, e = CancelRun d) ∨ (∃ m, e = AttributeError m)
  ∨ (∃ m, e = BaseException m).
Proof.
  unfold get_tool_outputs. destruct (decide _); [done|].
  destruct (required_action run) as [action|];
    [|intros [= <-]; right; left; by eexists].
  destruct (decide _); [|done].
  destruct (tool_outputs_loop _ _ _ _) as [e'|[? ?]] eqn:Hloop; [|done].
  intros [= <-].
  destruct (tool_outputs_loop_raises _ _ _ _ _ Hloop) as [H|H]; auto.
Qed.

Section TryBlock.
Variable E : Env.

Lemma loop_round_post h :
  hoare (λ s, run (self s) ≠ None) (loop_round E h)
    (passing (λ _ s, run (self s) ≠ None) (@try_post Handler)).
Proof.
  intros s Hs. unfold loop_round, bind, get_self, lift. simpl.
  destruct (get_tool_outputs E (self s) (current_run h)) as [e|outs] eqn:Hg.
  - destruct (get_tool_outputs_raises _ _ _ _ Hg) as [[d Hd]|[[m Hm]|[m Hm]]];
      subst e; simpl; done.
  - simpl. unfold perform.
    destruct (failure E (trace s) NewHandler); simpl; [done|].
    destruct (run (self s)) as [r|]; simpl; [|done].
    unfold request_stream. simpl.
    destruct (stream_answer E _ _); simpl; done.
Qed.

Lemma tool_loop_post rounds : ∀ h,
  hoare (λ s, run (self s) ≠ None) (tool_loop E rounds h) try_post.
Proof.
  induction rounds as [|rounds IH]; intros h; simpl; destruct (decide _).
  - by apply hoare_timeout.
  - by apply hoare_ret.
  - eapply hoare_bind; [apply loop_round_post | apply IH].
  - by apply hoare_ret.
Qed.

Lemma for_each_perform_post {A} (f : A → Event) (xs : list A) :
  hoare (λ _, True) (for_each xs (λ x, perform E (f x)))
    (passing (λ _ _, True) (@try_post Handler)).
Proof.
  induction xs as [|x xs IH]; simpl.
  - by apply hoare_ret.
  - eapply hoare_bind with (Q1 := λ _ _, True); [|intros ?; apply IH].
    by apply hoare_perform.
Qed.

Lemma run_body_post rounds kwargs :
  hoare (λ _, True) (run_body E rounds kwargs) try_post.
Proof.
  unfold run_body.
  eapply hoare_bind with (Q1 := λ _ _, True); [by apply hoare_perform|intros ?].
  eapply hoare_bind with (Q1 := λ _ _, True); [by apply hoare_get_self|intros self0].
  eapply hoare_bind; [apply for_each_perform_post|intros ?].
  eapply hoare_bind with (Q1 := λ _ _, True); [by apply hoare_get_self|intros self1].
  eapply hoare_bind with (Q1 := λ _ _, True);
    [by apply hoare_request_stream|intros h].
  eapply hoare_bind with (Q1 := λ _ s, run (self s) ≠ None).
  - intros s _. by simpl.
  - intros ?. apply tool_loop_post.
Qed.
End TryBlock.

(** ** The [ValueError]s of the methods *)

Section ValueErrors.
Variable E : Env.

Lemma refresh_async_unset s :
  run (self s) = None →
  refresh_async E s = (s, Raise (ValueError "Run has not been created yet.")).
Proof. intros H. unfold refresh_async, bind, get_self. simpl. by rewrite H. Qed.

Lemma cancel_async_unset s :
  run (self s) = None →
  cancel_async E s = (s, Raise (ValueError "Run has not been created yet.")).
Proof. intros H. unfold cancel_async, bind, get_self. simpl. by rewrite H. Qed.

Lemma refresh_async_set :
  hoare (λ s, run (self s) ≠ None) (refresh_async E) (λ r _, no_value_error r).
Proof.
  intros s Hs. unfold refresh_async, bind, get_self. simpl.
  destruct (run (self s)) as [r|]; [|done].
  unfold perform. destruct (failure E _ _); simpl; [done|].
  unfold request_retrieve. by destruct (retrieve_answer E _ _).
Qed.

Lemma cancel_async_set :
  hoare (λ s, run (self s) ≠ None) (cancel_async E) (λ r _, no_value_error r).
Proof.
  intros s Hs. unfold cancel_async, bind at 1, get_self. simpl.
  destruct (run (self s)) as [r|] eqn:Hr; [|done].
  unfold bind at 1, perform at 1. destruct (failure E _ _); simpl; [done|].
  unfold bind at 1, perform at 1. destruct (failure E _ _); simpl; [done|].
  apply refresh_async_set. simpl. by rewrite Hr.
Qed.

Lemma run_except_post exc :
  hoare (try_post (@Raise unit exc)) (run_except E exc)
    (λ r _, no_value_error r).
Proof.
  destruct exc as [d|m|m|m|m|m]; simpl.
  - eapply hoare_bind with (Q1 := λ _ _, True).
    + intros s Hs. pose proof (cancel_async_set s Hs) as H.
      unfold passing. by destruct (cancel_async E s) as [s' [[]|[]|]].
    + intros ?. by apply hoare_modify_self.
  - by intros s Hs.
  - eapply hoare_bind with (Q1 := λ _ _, True);
      [by apply hoare_perform | intros ?; by apply hoare_raise].
  - eapply hoare_bind with (Q1 := λ _ _, True);
      [by apply hoare_perform | intros ?; by apply hoare_raise].
  - eapply hoare_bind with (Q1 := λ _ _, True);
      [by apply hoare_perform | intros ?; by apply hoare_raise].
  - by apply hoare_raise.
Qed.

Lemma run_in_assistant_post rounds kwargs :
  hoare (λ _, True) (run_in_assistant E rounds kwargs)
    (λ r _, no_value_error r).
Proof.
  unfold run_in_assistant.
  eapply hoare_bind with (Q1 := λ _ _, True); [by apply hoare_perform|intros ?].
  eapply hoare_bind with (Q1 := λ _ _, True).
  - eapply hoare_try_except with (X := λ e s, try_post (@Raise unit e) s).
    + eapply hoare_bind with (Q1 := λ _ _, True); [|intros ?; by apply hoare_ret].
      intros s Hs. pose proof (run_body_post E rounds kwargs s Hs) as H.
      unfold passing. by destruct (run_body E rounds kwargs s) as [s' [h|[]|]].
    + intros e s Hs. pose proof (run_except_post e s Hs) as H.
      unfold passing. by destruct (run_except E e s) as [s' [[]|[]|]].
  - intros ?. eapply hoare_bind with (Q1 := λ _ _, True);
      [by apply hoare_get_self|intros self0].
    destruct (run self0); [by apply hoare_perform | by apply hoare_raise].
Qed.

Lemma run_async_unset rounds s :
  run (self s) = None → no_value_error (run_async E rounds s).2.
Proof.
  intros Hr. unfold run_async, bind at 1, perform at 1.
  destruct (failure E _ _); simpl; [done|].
  unfold bind at 1. simpl. rewrite Hr.
  unfold bind, with_assistant, perform at 1.
  destruct (failure E _ _); simpl; [done|].
  pose proof (run_in_assistant_post rounds (run_kwargs (self s))
                (record AssistantEnter (record GetOpenAIClient s)) I) as H.
  simpl in H.
  destruct (run_in_assistant E rounds _ _) as [s2 [[]|e|]]; simpl in *; try done.
  - unfold perform. by destruct (failure E _ _).
  - unfold perform. by destruct (failure E _ _).
Qed.

Lemma run_async_set rounds s :
  run (self s) ≠ None →
  run_async E rounds s
  = (record GetOpenAIClient s,
     match failure E (trace s) GetOpenAIClient with
     | Some msg => Raise (ExternalError msg)
     | None =>
         Raise (ValueError
           "This run object was provided an ID; can not create a new run.")
     end).
Proof.
  intros Hr. unfold run_async, bind at 1, perform at 1.
  destruct (failure E _ _) as [msg|]; simpl; [done|].
  unfold bind at 1. simpl. by destruct (run (self s)).
Qed.
End ValueErrors.

(** C10. [refresh_async] and [cancel_async] raise
    ValueError("Run has not been created yet.") when [self.run] is
    unset, and raise no [ValueError] otherwise; [run_async] raises
    ValueError("This run object was provided an ID; can not create a
    new run.") when [self.run] is set (its call of
    [get_openai_client()] having returned), and raises no [ValueError]
    when it is unset.  In each of these cases the [Run] object is left
    as it was and no request has been sent through the client:
    [refresh_async] and [cancel_async] have made no external call at
    all, [run_async] has only obtained the client. *)
Theorem value_errors_before_any_request E :
  (∀ s,
     (run (self s) = None →
      refresh_async E s = (s, Raise (ValueError "Run has not been created yet.")))
     ∧ (run (self s) ≠ None → no_value_error (refresh_async E s).2))
  ∧ (∀ s,
       (run (self s) = None →
        cancel_async E s = (s, Raise (ValueError "Run has not been created yet.")))
       ∧ (run (self s) ≠ None → no_value_error (cancel_async E s).2))
  ∧ (∀ rounds s,
       (run (self s) ≠ None →
        failure E (trace s) GetOpenAIClient = None →
        run_async E rounds s
        = (mkState (self s) (trace s ++ [GetOpenAIClient]),
           Raise (ValueError
             "This run object was provided an ID; can not create a new run.")))
       ∧ (run (self s) ≠ None →
          (run_async E rounds s).1 = mkState (self s) (trace s ++ [GetOpenAIClient])
          ∧ is_request GetOpenAIClient = false)
       ∧ (run (self s) = None → no_value_error (run_async E rounds s).2)).
Proof.
  split; [|split].
  - intros s. split; [apply refresh_async_unset|].
    intros Hs. apply (refresh_async_set E s Hs).
  - intros s. split; [apply cancel_async_unset|].
    intros Hs. apply (cancel_async_set E s Hs).
  - intros rounds s. split; [|split].
    + intros Hs Hc. by rewrite (run_async_set E rounds s Hs), Hc.
    + intros Hs. by rewrite (run_async_set E rounds s Hs).
    + apply run_async_unset.
Qed.

(** ** The loop of [run_async] *)

Lemma bind_Done {A B} (m : M A) (k : A → M B) s s' b :
  bind m k s = (s', Done b) →
  ∃ a s1, m s = (s1, Done a) ∧ k a s1 = (s', Done b).
Proof.
  unfold bind. destruct (m s) as [s1 [a|e|]]; try done.
  intros H. by exists a, s1.
Qed.

Lemma requires_action_decide (st : string) :
  st ∈ ["requires_action"] ↔ st = "requires_action".
Proof. apply list_elem_of_singleton. Qed.

Section Loop.
Variable E : Env.

Lemma tool_loop_exit rounds h s :
  status (current_run h) ≠ "requires_action" →
  tool_loop E rounds h s = (s, Done h).
Proof.
  intros Hst. destruct rounds; simpl;
    (destruct (decide _) as [Hin|_]; [by apply requires_action_decide in Hin|done]).
Qed.

Lemma tool_loop_round rounds h s :
  status (current_run h) = "requires_action" →
  tool_loop E (S rounds) h s
  = (let! h' := loop_round E h in tool_loop E rounds h') s.
Proof.
  intros Hst. simpl. destruct (decide _) as [_|Hnin]; [done|].
  exfalso. by apply Hnin, requires_action_decide.
Qed.

(** A round whose tool outputs are computed and whose stream is
    answered submits the outputs through a new handler and leaves
    that handler's run in [self.run]. *)
Lemma loop_round_submits h s outs r h' :
  get_tool_outputs E (self s) (current_run h) = inr outs →
  failure E (trace s) NewHandler = None →
  run (self s) = Some r →
  stream_answer E (trace s ++ [NewHandler])
    (SubmitToolOutputsStream (thread_id (thread (self s))) (run_id r) outs)
  = inr h' →
  ∃ s',
    loop_round E h s = (s', Done h')
    ∧ run (self s') = Some (current_run h')
    ∧ trace s'
      = trace s ++ [NewHandler;
                    SubmitToolOutputsStream (thread_id (thread (self s)))
                      (run_id r) outs].
Proof.
  intros Hg Hf Hr Hs. unfold loop_round, bind, get_self, lift, perform.
  simpl. rewrite Hg. simpl. rewrite Hf. simpl. rewrite Hr.
  unfold request_stream. simpl. rewrite Hs. simpl.
  eexists. split; [done|]. split; [done|]. simpl.
  by rewrite <- app_assoc.
Qed.

Lemma loop_round_done h s s' h' :
  loop_round E h s = (s', Done h') →
  run (self s') = Some (current_run h').
Proof.
  unfold loop_round, bind, get_self, lift, perform. simpl.
  destruct (get_tool_outputs E _ _); simpl; [done|].
  destruct (failure E _ _); simpl; [done|].
  destruct (run (self s)); simpl; [|done].
  unfold request_stream. simpl.
  destruct (stream_answer E _ _); simpl; [done|].
  by intros [= <- <-].
Qed.

Lemma tool_loop_done rounds : ∀ h s s' h',
  tool_loop E rounds h s = (s', Done h') →
  status (current_run h') ≠ "requires_action"
  ∧ (run (self s) = Some (current_run h) →
     run (self s') = Some (current_run h')).
Proof.
  induction rounds as [|rounds IH]; intros h s s' h'; simpl;
    destruct (decide _) as [Hin|Hnin]; try done.
  - intros [= <- <-]. split; [|done].
    intros Hst. by apply Hnin, requires_action_decide.
  - intros (h1 & s1 & Hround & Hrest)%bind_Done.
    destruct (IH _ _ _ _ Hrest) as [Hst Hrun]. split; [done|].
    intros _. apply Hrun. by eapply loop_round_done.
  - intros [= <- <-]. split; [|done].
    intros Hst. by apply Hnin, requires_action_decide.
Qed.

Lemma run_body_done rounds kwargs s s' h' :
  run_body E rounds kwargs s = (s', Done h') →
  status (current_run h') ≠ "requires_action"
  ∧ run (self s') = Some (current_run h').
Proof.
  unfold run_body.
  intros (_ & s1 & _ & H)%bind_Done.
  apply bind_Done in H as (self1 & s2 & _ & H).
  apply bind_Done in H as (_ & s3 & _ & H).
  apply bind_Done in H as (self3 & s4 & _ & H).
  apply bind_Done in H as (h & s5 & _ & H).
  apply bind_Done in H as ([] & s6 & Habs & H).
  destruct (tool_loop_done _ _ _ _ _ H) as [Hst Hrun]. split; [done|].
  apply Hrun. unfold absorb, bind, modify_self in Habs. simpl in Habs.
  by injection Habs as <-.
Qed.

Lemma tool_loop_more_rounds rounds : ∀ rounds' h s,
  (rounds ≤ rounds')%nat →
  (tool_loop E rounds h s).2 ≠ CutOff →
  tool_loop E rounds' h s = tool_loop E rounds h s.
Proof.
  induction rounds as [|rounds IH]; intros rounds' h s Hle.
  - simpl. destruct (decide _) as [Hin|Hnin]; [done|]. intros _.
    apply tool_loop_exit. intros Hst. by apply Hnin, requires_action_decide.
  - destruct rounds' as [|rounds']; [lia|]. simpl.
    destruct (decide _) as [Hin|Hnin]; [|done].
    unfold bind. destruct (loop_round E h s) as [s1 [h1|e|]]; try done.
    apply IH. lia.
Qed.
End Loop.

(** C1. When the current run does not require action the loop is over
    and nothing more is done; when it does, a round computes the tool
    outputs, submits them through a new handler and the loop goes on
    from that handler.  So the loop, and with it the [try] block, ends
    normally only with a current run that does not require action, and
    then [self.run] is the run of the last handler.  A result obtained
    within some number of rounds is the result for any larger
    number. *)
Theorem tool_loop_until_no_action_required E :
  (∀ rounds h s,
     status (current_run h) ≠ "requires_action" →
     tool_loop E rounds h s = (s, Done h))
  ∧ (∀ rounds h s,
       status (current_run h) = "requires_action" →
       tool_loop E (S rounds) h s
       = (let! h' := loop_round E h in tool_loop E rounds h') s)
  ∧ (∀ h s outs r h',
       get_tool_outputs E (self s) (current_run h) = inr outs →
       failure E (trace s) NewHandler = None →
       run (self s) = Some r →
       stream_answer E (trace s ++ [NewHandler])
         (SubmitToolOutputsStream (thread_id (thread (self s))) (run_id r) outs)
       = inr h' →
       ∃ s',
         loop_round E h s = (s', Done h')
         ∧ run (self s') = Some (current_run h')
         ∧ trace s'
           = trace s ++ [NewHandler;
                         SubmitToolOutputsStream (thread_id (thread (self s)))
                           (run_id r) outs])
  ∧ (∀ rounds h s s' h',
       tool_loop E rounds h s = (s', Done h') →
       status (current_run h') ≠ "requires_action"
       ∧ (run (self s) = Some (current_run h) →
          run (self s') = Some (current_run h')))
  ∧ (∀ rounds kwargs s s' h',
       run_body E rounds kwargs s = (s', Done h') →
       status (current_run h') ≠ "requires_action"
       ∧ run (self s') = Some (current_run h'))
  ∧ (∀ rounds rounds' h s,
       (rounds ≤ rounds')%nat →
       (tool_loop E rounds h s).2 ≠ CutOff →
       tool_loop E rounds' h s = tool_loop E rounds h s).
Proof.
  split; [apply tool_loop_exit|].
  split; [apply tool_loop_round|].
  split; [apply loop_round_submits|].
  split; [apply tool_loop_done|].
  split; [apply run_body_done|].
  intros rounds rounds'. apply tool_loop_more_rounds.
Qed.

(** ** [CancelRun] *)

Section Cancel.
Variable E : Env.



Hypothesis E_answers : answers E.

Lemma perform_answered e s : perform E e s = (record e s, Done tt).
Proof. unfold perform. by rewrite (proj1 E_answers). Qed.


End Cancel.


(** * The properties on the sample collaborators *)

Lemma sample_env_answers calls : answers (sample_env calls).
Proof. split; intros history e; [reflexivity | by eexists]. Defined.

Lemma get_tools_spec_witness :
  tools sample_self_replaced = Some [sample_tool "noop"]
  ∧ get_tools sample_self_replaced = [sample_tool "noop"].
Proof.
  split; [reflexivity|].
  exact (proj2 (proj2 (get_tools_spec sample_self_replaced)
                  [sample_tool "noop"] (assistant sample_self_replaced)
                  eq_refl)).
Defined.

Lemma get_tool_outputs_one_entry_per_call_witness :
  status (sample_waiting sample_calls) = "requires_action"
  ∧ ∃ outs,
      get_tool_outputs (sample_env sample_calls) sample_self
        (sample_waiting sample_calls) = inr (OutputList outs)
      ∧ length outs = 3%nat.
Proof.
  split; [reflexivity|].
  destruct (get_tool_outputs_one_entry_per_call (sample_env sample_calls)
              sample_self (sample_waiting sample_calls)
              (mkRequiredAction "submit_tool_outputs" sample_calls)
              eq_refl eq_refl eq_refl) as (outs & Hret & Hlen & _).
  - intros tc Hin (exc & Hd & Hexc).
    apply elem_of_cons in Hin as [->|Hin]; [vm_compute in Hd; try discriminate;
       injection Hd as <-; by destruct Hexc|].
    apply elem_of_cons in Hin as [->|Hin]; [vm_compute in Hd; try discriminate;
       injection Hd as <-; by destruct Hexc|].
    apply elem_of_cons in Hin as [->|Hin]; [vm_compute in Hd; try discriminate;
       injection Hd as <-; by destruct Hexc|].
    by apply elem_of_nil in Hin.
  - exists outs. split; [exact Hret | exact Hlen].
Defined.


Lemma get_tool_outputs_no_list_witness :
  get_tool_outputs (sample_env sample_calls) sample_self sample_completed
  = inr TupleNoneNone
  ∧ get_tool_outputs (sample_env sample_calls) sample_self sample_other_action
    = inr PyNone.
Proof.
  split.
  - apply (proj1 (get_tool_outputs_no_list (sample_env sample_calls)
                    sample_self sample_completed)).
    discriminate.
  - apply (proj2 (get_tool_outputs_no_list (sample_env sample_calls)
                    sample_self sample_other_action)
             eq_refl (mkRequiredAction "other" []) eq_refl).
    discriminate.
Defined.


Lemma value_errors_before_any_request_witness :
  run (self sample_state) = None
  ∧ refresh_async (sample_env sample_calls) sample_state
    = (sample_state, Raise (ValueError "Run has not been created yet."))
  ∧ run_async (sample_env sample_calls) 5 sample_state_created
    = (mkState (self sample_state_created) [GetOpenAIClient],
       Raise (ValueError
         "This run object was provided an ID; can not create a new run.")).
Proof.
  split; [reflexivity|]. split.
  - apply (proj1 (value_errors_before_any_request (sample_env sample_calls))).
    reflexivity.
  - apply (proj2 (proj2 (value_errors_before_any_request (sample_env sample_calls)))
             5%nat sample_state_created).
    + discriminate.
    + reflexivity.
Defined.

Lemma tool_loop_until_no_action_required_witness :
  ∃ s' h',
    run_body (sample_env sample_calls) 5 (run_kwargs sample_self) sample_state
    = (s', Done h')
    ∧ status (current_run h') ≠ "requires_action"
    ∧ run (self s') = Some (current_run h').
Proof.
  eexists _, _. split; [vm_compute; reflexivity|].
  eapply (proj1 (proj2 (proj2 (proj2 (proj2
            (tool_loop_until_no_action_required (sample_env sample_calls))))))
            5%nat (run_kwargs sample_self) sample_state).
  vm_compute. reflexivity.
Defined.


(** * More of the module *)

(** ** [sorted] is stable *)

Section Stable.
Context {V : Type}.
Variable key : V → Z.

Lemma insert_by_filter_key x l k :
  filter (λ y, key y = k) (insert_by key x l)
  = filter (λ y, key y = k) (x :: l).
Proof.
  induction l as [|y l IH]; simpl; [done|].
  destruct (Z.leb (key x) (key y)) eqn:Hxy; [done|].
  apply Z.leb_gt in Hxy.
  rewrite (filter_cons _ y), IH, !filter_cons.
  destruct (decide (key y = k)) as [Hy|Hy], (decide (key x = k)) as [Hx|Hx];
    try done.
  lia.
Qed.

Lemma sorted_filter_key l k :
  filter (λ y, key y = k) (sorted key l) = filter (λ y, key y = k) l.
Proof.
  induction l as [|x l IH]; simpl; [done|].
  by rewrite insert_by_filter_key, !filter_cons, IH.
Qed.
End Stable.

(** X1. The [messages] and [steps] properties hold exactly the recorded
    objects, each as often as it is recorded, and objects with the same
    [created_at] come in the order in which the dict holds them. *)
Theorem messages_steps_stable (self : Run) :
  messages self ≡ₚ dict_values (_messages self)
  ∧ steps self ≡ₚ dict_values (_steps self)
  ∧ (∀ t, filter (λ m, message_created_at m = t) (messages self)
          = filter (λ m, message_created_at m = t) (dict_values (_messages self)))
  ∧ (∀ t, filter (λ st, step_created_at st = t) (steps self)
          = filter (λ st, step_created_at st = t) (dict_values (_steps self))).
Proof.
  unfold messages, steps.
  split; [apply sorted_Permutation|]. split; [apply sorted_Permutation|].
  split; intros t; apply sorted_filter_key.
Qed.

(** ** The constructor *)

(** X2. A [Run] is created without steps and with the configuration it
    is given.  Created without messages it has none; created with
    messages, its [messages] property holds, for every id among them,
    the last message given under that id and nothing else. *)
Theorem Run_init_messages t a i ai ts ats r d :
  (∀ ms, steps (Run_init ms t a i ai ts ats r d) = []
         ∧ config (Run_init ms t a i ai ts ats r d) = (t, a, i, ai, ts, ats)
         ∧ run (Run_init ms t a i ai ts ats r d) = r
         ∧ data (Run_init ms t a i ai ts ats r d) = d)
  ∧ messages (Run_init None t a i ai ts ats r d) = []
  ∧ (∀ ms m,
       m ∈ messages (Run_init (Some ms) t a i ai ts ats r d)
       ↔ last (filter (λ m', message_id m' = message_id m) ms) = Some m).
Proof.
  split; [by intros [ms|]|]. split; [done|].
  intros ms m.
  pose proof (run_wf_init (Some ms) t a i ai ts ats r d) as [Hwf _].
  unfold messages. rewrite (sorted_elem_of message_id) by exact Hwf.
  simpl. rewrite dict_get_update_by_id. simpl.
  by destruct (last _).
Qed.

(** ** The validator of the tool fields *)

(** X3. [format_tools] maps [None] to [None]; on a list it keeps the
    length and the order, leaves every [Tool] as it is and converts
    every callable with [tool_from_function]; a list of [Tool]s comes
    back unchanged. *)
Theorem format_tools_spec {F} (tool_from_function : F → Tool) :
  format_tools tool_from_function None = None
  ∧ (∀ tools, ∃ out,
       format_tools tool_from_function (Some tools) = Some out
       ∧ length out = length tools
       ∧ ∀ (i : nat),
           out !! i
           = match tools !! i with
             | Some (GivenTool t) => Some t
             | Some (GivenFunction f) => Some (tool_from_function f)
             | None => None
             end)
  ∧ (∀ ts : list Tool,
       format_tools tool_from_function (Some (GivenTool <$> ts)) = Some ts).
Proof.
  split; [done|]. split.
  - intros tools. eexists. split; [done|]. split; [by rewrite length_map|].
    intros i. change (map ?f tools) with (f <$> tools).
    rewrite list_lookup_fmap. by destruct (tools !! i) as [[t|f]|].
  - intros ts. unfold format_tools. f_equal.
    induction ts as [|t ts IH]; [done|].
    rewrite fmap_cons. cbn [map]. by rewrite IH.
Qed.

(** ** What the methods leave alone *)

Lemma config_get_instructions self self' :
  config self = config self' → get_instructions self = get_instructions self'.
Proof. unfold config, get_instructions. by intros [= _ -> -> -> _ _]. Qed.

Lemma config_get_tools self self' :
  config self = config self' → get_tools self = get_tools self'.
Proof. unfold config, get_tools. by intros [= _ -> _ _ -> ->]. Qed.

Lemma config_run_kwargs self self' :
  config self = config self' → run_kwargs self = run_kwargs self'.
Proof.
  intros H. unfold run_kwargs.
  rewrite (config_get_instructions _ _ H), (config_get_tools _ _ H).
  unfold config in H. by injection H as _ _ -> -> -> ->.
Qed.

Lemma any_event_other (e : Event) :
  match e with CreateAndStream _ _ _ => True | _ => (λ _, True) e end.
Proof. by destruct e. Qed.

(** X4. [refresh_async] and [cancel_async] change no field of the [Run]
    object other than [run]: configuration, recorded messages and
    steps, and [data] are what they were, however the method ends. *)
Theorem refresh_cancel_frame E s :
  let rest (self : Run) := (config self, _messages self, _steps self, data self) in
  rest (self (refresh_async E s).1) = rest (self s)
  ∧ rest (self (cancel_async E s).1) = rest (self s).
Proof.
  intros rest.
  pose (I := λ s' : State, rest (self s') = rest (self s)).
  split.
  - apply (refresh_async_keeps E I (λ _, True)); try done. apply any_event_other.
  - apply (cancel_async_keeps E I (λ _, True)); try done. apply any_event_other.
Qed.

(** X5. [run_async] never assigns the thread, the instructions, the
    additional instructions, the tools or the additional tools of the
    [Run] object: they are the same after the run as before, however it
    ends.  So with replacement instructions [get_instructions] returns
    after the run what it returned before, and with replacement tools
    so does [get_tools].  (The assistant is an object of its own, which
    its hooks and its context may change; nothing is said of it.) *)
Theorem run_async_keeps_config E rounds s :
  let self' := self (run_async E rounds s).1 in
  own_config self' = own_config (self s)
  ∧ (instructions (self s) ≠ None →
     get_instructions self' = get_instructions (self s))
  ∧ (tools (self s) ≠ None → get_tools self' = get_tools (self s)).
Proof.
  intros self'.
  assert (own_config self' = own_config (self s)) as H.
  { pose (I := λ s' : State, own_config (self s') = own_config (self s)).
    apply (run_async_keeps E I (λ _, True)); try done. apply any_event_other. }
  split; [done|]. unfold own_config in H.
  injection H as _ Hi Hai Hts Hats. split.
  - intros Hset. unfold get_instructions. rewrite Hi, Hai.
    by destruct (instructions (self s)).
  - intros Hset. unfold get_tools. rewrite Hts, Hats.
    by destruct (tools (self s)).
Qed.

(** ** Recorded ids are kept *)

Lemma dict_keys_set_prefix {V} (d : dict V) k v :
  dict_keys d `prefix_of` dict_keys (dict_set d k v).
Proof.
  rewrite dict_keys_set. destruct (decide _); [done|]. by apply prefix_app_r.
Qed.

Lemma dict_keys_update_prefix {V} (other : dict V) : ∀ d,
  dict_keys d `prefix_of` dict_keys (dict_update d other).
Proof.
  unfold dict_update.
  induction other as [|[k v] other IH]; intros d; simpl; [done|].
  etrans; [apply dict_keys_set_prefix | apply IH].
Qed.

(** X6. [run_async] never drops a recorded message or step: the ids
    recorded before the run are still recorded after it, however it
    ends, in the same order and ahead of the ids the run has added. *)
Theorem run_async_keeps_ids E rounds s :
  dict_keys (_messages (self s))
    `prefix_of` dict_keys (_messages (self (run_async E rounds s).1))
  ∧ dict_keys (_steps (self s))
      `prefix_of` dict_keys (_steps (self (run_async E rounds s).1)).
Proof.
  pose (I := λ s' : State,
          dict_keys (_messages (self s)) `prefix_of` dict_keys (_messages (self s'))
          ∧ dict_keys (_steps (self s)) `prefix_of` dict_keys (_steps (self s'))).
  apply (run_async_keeps E I (λ _, True)); try done.
  - intros s' ms [Hm Hs]. split; [|done]. simpl.
    etrans; [exact Hm | apply dict_keys_update_prefix].
  - intros s' ss [Hm Hs]. split; [done|]. simpl.
    etrans; [exact Hs | apply dict_keys_update_prefix].
  - apply any_event_other.
Qed.

(** ** What [refresh_async] and [cancel_async] do to a created run *)



(** ** The ways [run_async] ends *)

Lemma perform_Done E e s s' u :
  perform E e s = (s', Done u) → s' = record e s.
Proof. unfold perform. destruct (failure E _ _); by intros [= <-]. Qed.

Lemma with_assistant_Done {A} E (body : M A) s s' a :
  with_assistant E body s = (s', Done a) →
  ∃ s2, body (record AssistantEnter s) = (s2, Done a)
    ∧ s' = record AssistantExit s2.
Proof.
  unfold with_assistant, perform at 1.
  destruct (failure E (trace s) AssistantEnter); [done|].
  destruct (body _) as [s2 [a'|e|]]; [| |done].
  - unfold perform. destruct (failure E _ _); [done|].
    intros [= <- <-]. by exists s2.
  - unfold perform. by destruct (failure E _ _).
Qed.

Section Endings.
Variable E : Env.
Hypothesis E_answers : answers E.

(** With collaborators that answer, [run_async] on a new run is
    decided by how its [try] block ends. *)
Lemma run_async_by_try_block rounds s :
  run (self s) = None →
  run_async E rounds s
  = match run_body E rounds (run_kwargs (self s))
            (record NewHandler (record AssistantEnter (record GetOpenAIClient s)))
    with
    | (s2, Done _) =>
        match run (self s2) with
        | Some _ =>
            (mkState (self s2) (trace s2 ++ [PostRunHook (self s2); AssistantExit]),
             Done (self s2))
        | None =>
            (mkState (self s2) (trace s2 ++ [AssistantExit]),
             Raise (AttributeError "'NoneType' object has no attribute 'status'"))
        end
    | (s2, Raise exc) =>
        match (run_except E exc ;;;
               let! self := get_self in
               match run self with
               | None =>
                   raise (AttributeError
                            "'NoneType' object has no attribute 'status'")
               | Some _ => perform E (PostRunHook self)
               end) s2
        with
        | (s3, Done _) => (record AssistantExit s3, Done (self s3))
        | (s3, Raise e) => (record AssistantExit s3, Raise e)
        | (s3, CutOff) => (s3, CutOff)
        end
    | (s2, CutOff) => (s2, CutOff)
    end.
Proof.
  intros Hunset.
  unfold run_async, bind at 1. rewrite (perform_answered E E_answers).
  unfold bind at 1, get_self at 1. simpl. rewrite Hunset.
  unfold bind at 1, with_assistant. rewrite (perform_answered E E_answers).
  unfold run_in_assistant, bind at 1. rewrite (perform_answered E E_answers).
  unfold bind at 1, try_except, bind at 1.
  destruct (run_body E rounds _ _) as [s2 [h|exc|]]; simpl; [| |done].
  - unfold bind at 1, get_self at 1. simpl.
    destruct (run (self s2)); simpl.
    + rewrite !(perform_answered E E_answers). simpl.
      unfold record. simpl. by rewrite <- app_assoc.
    + by rewrite (perform_answered E E_answers).
  - unfold bind, get_self.
    destruct (run_except E exc s2) as [s3 [[]|e|]]; simpl.
    + destruct (run (self s3)); simpl.
      * by rewrite !(perform_answered E E_answers).
      * by rewrite (perform_answered E E_answers).
    + by rewrite (perform_answered E E_answers).
    + done.
Qed.

Lemma run_body_keeps_data rounds kwargs s :
  data (self (run_body E rounds kwargs s).1) = data (self s).
Proof.
  pose (I := λ s' : State, data (self s') = data (self s)).
  apply (run_body_keeps E I (λ _, True)); try done. apply any_event_other.
Qed.
End Endings.

(** X9. When the [try] block of [run_async] ends normally (and the
    collaborators answer), [run_async] calls the assistant's
    [post_run_hook] once, with the [Run] object, leaves the assistant's
    context and returns the [Run] object; its [run] is the run of the
    last handler, which does not require action, and [data] is what it
    was before the run. *)
Theorem run_async_completes E rounds s s2 h :
  answers E →
  run (self s) = None →
  run_body E rounds (run_kwargs (self s))
    (record NewHandler (record AssistantEnter (record GetOpenAIClient s)))
  = (s2, Done h) →
  run_async E rounds s
  = (mkState (self s2) (trace s2 ++ [PostRunHook (self s2); AssistantExit]),
     Done (self s2))
  ∧ run (self s2) = Some (current_run h)
  ∧ status (current_run h) ≠ "requires_action"
  ∧ data (self s2) = data (self s).
Proof.
  intros Hans Hunset Hbody.
  destruct (run_body_done E _ _ _ _ _ Hbody) as [Hst Hrun].
  split; [|split; [done|split; [done|]]].
  - rewrite (run_async_by_try_block E Hans rounds s Hunset), Hbody.
    by rewrite Hrun.
  - pose proof (run_body_keeps_data E rounds (run_kwargs (self s))
                  (record NewHandler
                     (record AssistantEnter (record GetOpenAIClient s)))) as Hd.
    by rewrite Hbody in Hd.
Qed.

(** X10. When the [try] block of [run_async] raises an exception of
    class [Exception] other than [CancelRun] (and the collaborators
    answer), [run_async] hands the exception to the handler's
    [on_exception], leaves the assistant's context and raises the same
    exception.  An exception that is not of class [Exception] meets no
    [except] clause: it leaves [run_async] through the assistant's exit
    without [on_exception].  In both cases [post_run_hook] is not
    called, no request is sent and [data] is not touched. *)
Theorem run_async_reraises E rounds s s2 exc :
  answers E →
  run (self s) = None →
  is_CancelRun exc = false →
  run_body E rounds (run_kwargs (self s))
    (record NewHandler (record AssistantEnter (record GetOpenAIClient s)))
  = (s2, Raise exc) →
  run_async E rounds s
  = (mkState (self s2)
       (trace s2
          ++ (if is_Exception exc then [OnException exc] else [])
          ++ [AssistantExit]),
     Raise exc)
  ∧ data (self s2) = data (self s).
Proof.
  intros Hans Hunset Hexc Hbody. split.
  - rewrite (run_async_by_try_block E Hans rounds s Hunset), Hbody.
    destruct exc as [d|m|m|m|m|m]; [done|..]; simpl;
      unfold bind, raise; rewrite ?(perform_answered E Hans); simpl;
      rewrite ?(perform_answered E Hans); simpl;
      unfold record; simpl; by rewrite <- ?app_assoc.
  - pose proof (run_body_keeps_data E rounds (run_kwargs (self s))
                  (record NewHandler
                     (record AssistantEnter (record GetOpenAIClient s)))) as Hd.
    by rewrite Hbody in Hd.
Qed.

(** X11. Once the assistant's context is entered it is left again,
    however the body of [run_async] ends: unless the loop is cut off,
    the last external call of [run_async] is the exit of the
    assistant's context. *)
Theorem run_async_leaves_context E rounds s :
  run (self s) = None →
  failure E (trace s) GetOpenAIClient = None →
  failure E (trace s ++ [GetOpenAIClient]) AssistantEnter = None →
  (run_async E rounds s).2 ≠ CutOff →
  last (trace (run_async E rounds s).1) = Some AssistantExit.
Proof.
  intros Hunset Hc Hin.
  destruct (run_async E rounds s) as [s' res] eqn:Hrun. simpl. intros Hres.
  unfold run_async, bind, get_self, with_assistant, perform in Hrun.
  rewrite Hc in Hrun. simpl in Hrun. rewrite Hunset in Hrun. simpl in Hrun.
  rewrite Hin in Hrun. simpl in Hrun.
  destruct (run_in_assistant E rounds _ _) as [s2 [[]|e|]];
    try destruct (failure E (trace s2) AssistantExit);
    injection Hrun as <- <-; simpl; try done; apply last_snoc.
Qed.

(** X12. A [Run] object runs once: when [run_async] has returned, it
    has returned the [Run] object and [self.run] is set, so that
    calling [run_async] again raises the [ValueError] and sends no
    request. *)
Theorem run_async_runs_once E rounds s s' result :
  run_async E rounds s = (s', Done result) →
  result = self s'
  ∧ run (self s) = None
  ∧ run (self s') ≠ None
  ∧ ∀ E' rounds',
      failure E' (trace s') GetOpenAIClient = None →
      run_async E' rounds' s'
      = (record GetOpenAIClient s',
         Raise (ValueError
           "This run object was provided an ID; can not create a new run.")).
Proof.
  intros Hrun.
  assert (result = self s' ∧ run (self s) = None ∧ run (self s') ≠ None)
    as (Hres & Hunset & Hset).
  { unfold run_async in Hrun.
    apply bind_Done in Hrun as ([] & s1 & H1%perform_Done & Hrun). subst s1.
    apply bind_Done in Hrun as (self0 & s1 & [= <- <-] & Hrun). simpl in Hrun.
    destruct (run (self s)) eqn:Hr; [done|].
    apply bind_Done in Hrun as ([] & s1 & Hwith & [= <- <-]).
    apply with_assistant_Done in Hwith as (s2 & Hbody & ->).
    split; [done|]. split; [done|]. simpl.
    unfold run_in_assistant in Hbody.
    apply bind_Done in Hbody as ([] & s3 & _ & Hbody).
    apply bind_Done in Hbody as ([] & s4 & _ & Hbody).
    apply bind_Done in Hbody as (self4 & s5 & [= <- <-] & Hbody).
    destruct (run (self s4)) eqn:Hr4; [|done].
    apply perform_Done in Hbody as ->. simpl. by rewrite Hr4. }
  split; [done|]. split; [done|]. split; [done|].
  intros E' rounds' Hc. by rewrite (run_async_set E' rounds' s' Hset), Hc.
Qed.

(** ** The requests of the methods *)

Lemma get_tool_outputs_never_pair E self run outs :
  status run ∈ ["requires_action"] →
  get_tool_outputs E self run = inr outs →
  outs ≠ TupleNoneNone.
Proof.
  intros Hst%requires_action_decide. unfold get_tool_outputs.
  destruct (decide _) as [Hne|_]; [done|].
  destruct (required_action run) as [action|]; [|done].
  destruct (decide _) as [_|_]; [|by intros [= <-]].
  destruct (tool_outputs_loop _ _ _ _) as [err|[? ?]]; [done|].
  by intros [= <-].
Qed.

Section Addressed.
Variable E : Env.
Variable T : Thread.
Variable A : Assistant.
Variable t0 : list Event.

Let PE : Event → Prop := well_addressed T A.
Let I (s : State) : Prop :=
  thread (self s) = T ∧ assistant (self s) = A ∧ added t0 PE s.

Lemma addressed_record s ev : PE ev → I s → I (record ev s).
Proof.
  intros He Hs. destruct Hs as (HT & HA & new & Htr & Hall).
  split; [done|]. split; [done|].
  exists (new ++ [ev]). simpl. split.
  - by rewrite Htr, app_assoc.
  - apply Forall_app. split; [done|]. by apply Forall_singleton.
Qed.

Lemma addressed_modify f :
  (∀ self, thread (f self) = thread self ∧ assistant (f self) = assistant self) →
  preserves I (modify_self f).
Proof.
  intros Hf. apply preserves_modify_self. intros s (HT & HA & Hadd).
  destruct (Hf (self s)) as [HT' HA']. split; [by rewrite <- HT|].
  split; [by rewrite <- HA|done].
Qed.

Lemma addressed_get_self {B} (k : Run → M B) :
  (∀ a, thread a = T → assistant a = A → preserves I (k a)) →
  preserves I (bind get_self k).
Proof.
  intros Hk s Hs. unfold bind, get_self.
  destruct Hs as (HT & HA & Hadd). by apply (Hk (self s) HT HA s).
Qed.

Lemma addressed_lift {B C} (r : exn + B) (k : B → M C) :
  (∀ b, r = inr b → preserves I (k b)) → preserves I (bind (lift r) k).
Proof.
  intros Hk s Hs. unfold bind, lift. destruct r as [e|b]; [done|].
  by apply (Hk b eq_refl s).
Qed.

Local Ltac addr :=
  repeat lazymatch goal with
    | |- ∀ _, _ => intro
    | |- preserves _ (bind get_self _) => apply addressed_get_self
    | |- preserves _ (bind (lift _) _) => apply addressed_lift
    | |- preserves _ (bind _ _) => apply preserves_bind
    | |- preserves _ (perform _ _) =>
        apply preserves_perform; intros ? ?; apply addressed_record;
        [done | assumption]
    | |- preserves _ (request_retrieve _ _) =>
        apply preserves_request_retrieve; intros ? ?; apply addressed_record;
        [by simpl; f_equal | assumption]
    | |- preserves _ (modify_self _) => apply addressed_modify; done
    | |- preserves _ (for_each _ _) => apply preserves_for_each
    | |- preserves _ get_self => apply preserves_pure; done
    | |- preserves _ (ret _) => apply preserves_pure; done
    | |- preserves _ (raise _) => apply preserves_pure; done
    | |- preserves _ cut_off => apply preserves_pure; done
    | |- preserves _ (match run ?self with _ => _ end) => destruct (run self)
    end.

Lemma refresh_async_addressed : preserves I (refresh_async E).
Proof. unfold refresh_async. addr. Qed.

Lemma cancel_async_addressed : preserves I (cancel_async E).
Proof.
  unfold cancel_async. addr.
  - apply preserves_perform. intros ? ?. apply addressed_record; [|done].
    simpl. by f_equal.
  - apply refresh_async_addressed.
Qed.

Lemma absorb_addressed h : preserves I (absorb h).
Proof. unfold absorb. addr. Qed.

Lemma loop_round_addressed h :
  status (current_run h) ∈ ["requires_action"] →
  preserves I (loop_round E h).
Proof.
  intros Hst. unfold loop_round. addr.
  - apply preserves_request_stream. intros ? ?.
    apply addressed_record; [|done]. simpl. split; [by f_equal|].
    by eapply get_tool_outputs_never_pair.
  - apply absorb_addressed.
Qed.

Lemma tool_loop_addressed rounds : ∀ h, preserves I (tool_loop E rounds h).
Proof.
  induction rounds as [|rounds IH]; intros h; simpl;
    destruct (decide _); addr.
  - by apply loop_round_addressed.
  - apply IH.
Qed.

Lemma run_body_addressed rounds kwargs :
  preserves I (run_body E rounds kwargs).
Proof.
  unfold run_body. addr.
  - apply preserves_request_stream. intros ? ?.
    apply addressed_record; [|done]. simpl. split; by f_equal.
  - apply absorb_addressed.
  - apply tool_loop_addressed.
Qed.

Lemma run_except_addressed exc : preserves I (run_except E exc).
Proof. destruct exc; simpl; addr. apply cancel_async_addressed. Qed.

Lemma run_async_addressed rounds : preserves I (run_async E rounds).
Proof.
  unfold run_async. addr.
  apply preserves_with_assistant; addr.
  unfold run_in_assistant. addr.
  apply preserves_try_except; addr.
  - apply run_body_addressed.
  - apply run_except_addressed.
Qed.
End Addressed.

(** X13. Every request that [run_async], [cancel_async] and
    [refresh_async] send goes to the thread of the [Run] object; the
    creation request names its assistant; and a submission of tool
    outputs never carries the pair (None, None) that [get_tool_outputs]
    returns for a run that does not require action. *)
Theorem requests_are_addressed E s :
  let PE := well_addressed (thread (self s)) (assistant (self s)) in
  (∀ rounds, added (trace s) PE (run_async E rounds s).1)
  ∧ added (trace s) PE (cancel_async E s).1
  ∧ added (trace s) PE (refresh_async E s).1.
Proof.
  intros PE.
  assert (thread (self s) = thread (self s) ∧ assistant (self s) = assistant (self s)
          ∧ added (trace s) PE s) as Hs.
  { split; [done|]. split; [done|]. exists []. split; [by rewrite app_nil_r|done]. }
  split; [intros rounds|split].
  - apply (run_async_addressed E _ _ (trace s) rounds s Hs).
  - apply (cancel_async_addressed E _ _ (trace s) s Hs).
  - apply (refresh_async_addressed E _ _ (trace s) s Hs).
Qed.

(** ** The start of the [try] block *)


Lemma tool_loop_extends E rounds h s :
  ∃ rest, trace (tool_loop E rounds h s).1 = trace s ++ rest.
Proof.
  pose (I := λ s' : State, added (trace s) (λ _, True) s').
  assert (I (tool_loop E rounds h s).1) as (rest & Hrest & _).
  { apply (tool_loop_keeps E I (λ _, True)); try done.
    - intros s' e _ (new & Hn & _). exists (new ++ [e]). simpl.
      split; [by rewrite Hn, app_assoc|]. by apply Forall_true.
    - apply any_event_other.
    - exists []. split; [by rewrite app_nil_r|done]. }
  by exists rest.
Qed.


(** ** A refused cancellation *)

(** X15. When the [try] block of [run_async] ends with [CancelRun] and
    the service refuses to cancel the run, the error of the cancel
    request leaves [run_async] in place of a normal return: the run is
    not retrieved, [data] is not set, [post_run_hook] is not called;
    the assistant's context is left. *)
Theorem run_async_cancel_refused E rounds s s2 d msg :
  refuses_cancel E msg →
  run (self s) = None →
  run_body E rounds (run_kwargs (self s))
    (record NewHandler (record AssistantEnter (record GetOpenAIClient s)))
  = (s2, Raise (CancelRun d)) →
  ∃ r,
    run (self s2) = Some r
    ∧ run_async E rounds s
      = (mkState (self s2)
           (trace s2 ++ [GetOpenAIClient;
                         Cancel (run_id r) (thread_id (thread (self s2)));
                         AssistantExit]),
         Raise (ExternalError msg))
    ∧ data (self s2) = data (self s).
Proof.
  intros Hrefuse Hunset Hbody.
  pose proof (run_body_post E rounds (run_kwargs (self s))
                (record NewHandler (record AssistantEnter (record GetOpenAIClient s)))
                I) as Hpost.
  rewrite Hbody in Hpost. simpl in Hpost.
  destruct (run (self s2)) as [r|] eqn:Hr; [|done].
  exists r. split; [done|]. split.
  - unfold run_async, bind at 1, perform at 1. rewrite Hrefuse.
    unfold bind at 1, get_self at 1. simpl. rewrite Hunset.
    unfold bind at 1, with_assistant, perform at 1. rewrite Hrefuse.
    unfold run_in_assistant, bind at 1, perform at 1. rewrite Hrefuse.
    unfold bind at 1, try_except, bind at 1. rewrite Hbody. simpl.
    unfold bind at 1, bind at 1, cancel_async, bind at 1, get_self at 1.
    simpl. rewrite Hr.
    unfold bind at 1, perform at 1. rewrite Hrefuse.
    unfold bind at 1, perform at 1. rewrite Hrefuse. simpl.
    unfold perform. rewrite Hrefuse. simpl.
    unfold record. simpl. by repeat rewrite <- app_assoc.
  - pose proof (run_body_keeps_data E rounds (run_kwargs (self s))
                  (record NewHandler
                     (record AssistantEnter (record GetOpenAIClient s)))) as Hd.
    by rewrite Hbody in Hd.
Qed.

(** ** A run that never requires action *)

Lemma for_each_answered {X} E (f : X → Event) (xs : list X) :
  answers E →
  ∀ s, for_each xs (λ x, perform E (f x)) s
       = (mkState (self s) (trace s ++ (f <$> xs)), Done tt).
Proof.
  intros Hans. induction xs as [|x xs IH]; intros s; simpl.
  - unfold ret. rewrite app_nil_r. by destruct s.
  - unfold bind. rewrite (perform_answered E Hans), IH. simpl.
    by rewrite <- app_assoc.
Qed.

(** X16. When the stream of the creation request ends with a run that
    does not require action (and the collaborators answer),
    [run_async] sends this one request and no other, whatever the bound
    on rounds: it obtains the client, enters the assistant's context,
    makes the handler, calls [pre_run_hook], replays the known
    messages, creates the run, records what the handler collected,
    calls [post_run_hook] and leaves the context, and returns the
    [Run] object with the handler's run. *)
Theorem run_async_without_action E rounds s h :
  answers E →
  run (self s) = None →
  let start :=
    trace s ++ [GetOpenAIClient; AssistantEnter; NewHandler; PreRunHook]
      ++ (OnMessageDone <$> messages (self s)) in
  let create :=
    CreateAndStream (thread_id (thread (self s)))
      (assistant_id (assistant (self s))) (run_kwargs (self s)) in
  stream_answer E start create = inr h →
  status (current_run h) ≠ "requires_action" →
  let final := absorbed h (self s) in
  run_async E rounds s
  = (mkState final (start ++ [create; PostRunHook final; AssistantExit]),
     Done final)
  ∧ run final = Some (current_run h).
Proof.
  intros Hans Hunset start create Hstream Hst final. split; [|done].
  rewrite (run_async_by_try_block E Hans rounds s Hunset).
  assert (run_body E rounds (run_kwargs (self s))
            (record NewHandler (record AssistantEnter (record GetOpenAIClient s)))
          = (mkState final (start ++ [create]), Done h)) as ->.
  { unfold run_body, bind at 1. rewrite (perform_answered E Hans).
    unfold bind at 1, get_self at 1. simpl. unfold bind at 1.
    rewrite (for_each_answered E OnMessageDone _ Hans). simpl.
    unfold bind at 1, get_self at 1. simpl.
    unfold bind at 1, request_stream. simpl.
    replace (((((trace s ++ [GetOpenAIClient]) ++ [AssistantEnter]) ++ [NewHandler])
               ++ [PreRunHook]) ++ (OnMessageDone <$> messages (self s)))
      with start by (unfold start; by repeat rewrite <- app_assoc).
    fold create. rewrite Hstream. simpl.
    unfold bind. simpl. by rewrite tool_loop_exit. }
  simpl. unfold record. simpl. by repeat rewrite <- app_assoc.
Qed.

(** * The further properties on the sample collaborators *)

Lemma sample_env_offline_answers : answers sample_env_offline.
Proof. split; intros history e; [reflexivity | by eexists]. Defined.

Lemma sample_env_direct_answers : answers sample_env_direct.
Proof. split; intros history e; [reflexivity | by eexists]. Defined.

Lemma sample_env_no_cancel_refuses :
  refuses_cancel sample_env_no_cancel "cannot cancel".
Proof. intros history e. reflexivity. Defined.

Lemma Run_init_messages_witness :
  mkMessage "msg_0" 10 "What is 1 + 2?" ∈ messages sample_self.
Proof.
  apply (proj2 (proj2 (Run_init_messages (mkThread "thread_1")
                         (mkAssistant "asst_1" (Some "Be brief.") [sample_tool "add"])
                         None (Some "Use the tools.") None
                         (Some [sample_tool "noop"; sample_tool "stop";
                                sample_tool "boom"])
                         None None))
           [mkMessage "msg_0" 10 "What is 1 + 2?"]
           (mkMessage "msg_0" 10 "What is 1 + 2?")).
  reflexivity.
Defined.



Lemma run_async_completes_witness :
  ∃ final trace',
    run_async (sample_env sample_calls) 5 sample_state
    = (mkState final trace', Done final)
    ∧ run final = Some sample_completed
    ∧ data final = None.
Proof.
  destruct (run_async_completes (sample_env sample_calls) 5 sample_state
              (run_body (sample_env sample_calls) 5 (run_kwargs sample_self)
                 (record NewHandler
                    (record AssistantEnter (record GetOpenAIClient sample_state)))).1
              (mkHandler sample_completed
                 [mkMessage "msg_2" 30 "The sum is 3.";
                  mkMessage "msg_1" 20 "Computing."]
                 [mkRunStep "step_2" 31 "message_creation"])
              (sample_env_answers sample_calls) eq_refl)
    as (Hrun & Hfinal & _ & Hdata).
  - vm_compute. reflexivity.
  - eexists _, _. split; [exact Hrun|]. split; [exact Hfinal|exact Hdata].
Defined.

Lemma run_async_reraises_witness :
  ∃ s',
    run_async sample_env_offline 5 sample_state
    = (s', Raise (ExternalError "connection lost"))
    ∧ last (trace s') = Some AssistantExit.
Proof.
  destruct (run_async_reraises sample_env_offline 5 sample_state
              (run_body sample_env_offline 5 (run_kwargs sample_self)
                 (record NewHandler
                    (record AssistantEnter (record GetOpenAIClient sample_state)))).1
              (ExternalError "connection lost")
              sample_env_offline_answers eq_refl eq_refl)
    as (Hrun & _).
  - vm_compute. reflexivity.
  - eexists. split; [exact Hrun|]. vm_compute. reflexivity.
Defined.

Lemma run_async_leaves_context_witness :
  last (trace (run_async (sample_env sample_calls_stop) 5 sample_state).1)
  = Some AssistantExit.
Proof.
  apply run_async_leaves_context; try reflexivity.
  vm_compute. discriminate.
Defined.

Lemma run_async_runs_once_witness :
  ∃ s',
    (run_async (sample_env sample_calls) 5 sample_state).1 = s'
    ∧ run_async (sample_env sample_calls) 5 s'
      = (record GetOpenAIClient s',
         Raise (ValueError
           "This run object was provided an ID; can not create a new run.")).
Proof.
  eexists. split; [reflexivity|].
  eapply (run_async_runs_once (sample_env sample_calls) 5 sample_state).
  - vm_compute. reflexivity.
  - reflexivity.
Defined.

Lemma run_async_cancel_refused_witness :
  ∃ s',
    run_async sample_env_no_cancel 5 sample_state
    = (s', Raise (ExternalError "cannot cancel"))
    ∧ data (self s') = None.
Proof.
  destruct (run_async_cancel_refused sample_env_no_cancel 5 sample_state
              (run_body sample_env_no_cancel 5 (run_kwargs sample_self)
                 (record NewHandler
                    (record AssistantEnter (record GetOpenAIClient sample_state)))).1
              (Some "enough") "cannot cancel"
              sample_env_no_cancel_refuses eq_refl)
    as (r & _ & Hrun & Hdata).
  - vm_compute. reflexivity.
  - eexists. split; [exact Hrun|exact Hdata].
Defined.

Lemma run_async_without_action_witness :
  ∃ final trace',
    run_async sample_env_direct 0 sample_state = (mkState final trace', Done final)
    ∧ run final = Some sample_completed.
Proof.
  destruct (run_async_without_action sample_env_direct 0 sample_state
              (mkHandler sample_completed
                 [mkMessage "msg_1" 20 "3."]
                 [mkRunStep "step_1" 21 "message_creation"])
              sample_env_direct_answers eq_refl eq_refl)
    as (Hrun & Hfinal).
  - discriminate.
  - eexists _, _. split; [exact Hrun|exact Hfinal].
Defined.

(** * The creation request of [run_async] *)

Section Sends.
Variable E : Env.
Hypothesis E_answers : answers E.

Lemma grows_record t0 s e :
  added t0 (λ _, True) s → added t0 (λ _, True) (record e s).
Proof.
  intros (new & Hn & _). exists (new ++ [e]). simpl.
  split; [by rewrite Hn, app_assoc|]. by apply Forall_true.
Qed.

(** With collaborators that answer, the [try] block gets as far as the
    creation request. *)
Lemma run_body_sends_create rounds kwargs s :
  ∃ rest,
    trace (run_body E rounds kwargs s).1
    = trace s ++ PreRunHook :: (OnMessageDone <$> messages (self s))
        ++ CreateAndStream (thread_id (thread (self s)))
             (assistant_id (assistant (self s))) kwargs
        :: rest.
Proof.
  unfold run_body, bind at 1. rewrite (perform_answered E E_answers).
  unfold bind at 1, get_self at 1. simpl. unfold bind at 1.
  rewrite (for_each_answered E OnMessageDone _ E_answers). simpl.
  unfold bind at 1, get_self at 1. simpl. unfold bind at 1, request_stream.
  simpl. destruct (stream_answer E _ _) as [msg|h]; simpl.
  - exists []. by repeat rewrite <- app_assoc.
  - unfold bind. simpl.
    match goal with
    | |- context [tool_loop E rounds h ?s1] =>
        destruct (tool_loop_extends E rounds h s1) as [rest Hrest]
    end.
    exists rest. rewrite Hrest. simpl.
    repeat rewrite <- app_assoc. simpl. by repeat rewrite <- app_assoc.
Qed.

(** What follows the [try] block only adds to the trace. *)
Lemma run_except_grows exc s :
  ∃ rest,
    trace ((run_except E exc ;;;
            let! self := get_self in
            match run self with
            | None =>
                raise (AttributeError
                         "'NoneType' object has no attribute 'status'")
            | Some _ => perform E (PostRunHook self)
            end) s).1
    = trace s ++ rest.
Proof.
  pose (I := λ s' : State, added (trace s) (λ _, True) s').
  assert (I ((run_except E exc ;;;
              let! self := get_self in
              match run self with
              | None =>
                  raise (AttributeError
                           "'NoneType' object has no attribute 'status'")
              | Some _ => perform E (PostRunHook self)
              end) s).1) as (rest & Hrest & _).
  { apply preserves_bind.
    - apply (run_except_keeps E I (λ _, True)); try done.
      + intros s' e _. apply grows_record.
      + apply any_event_other.
    - intros _. apply preserves_bind; [by apply preserves_pure|].
      intros self0. destruct (run self0).
      + apply preserves_perform. intros s'. apply grows_record.
      + by apply preserves_pure.
    - exists []. split; [by rewrite app_nil_r|done]. }
  by exists rest.
Qed.

Lemma run_async_sends_create rounds s :
  run (self s) = None →
  ∃ rest,
    trace (run_async E rounds s).1
    = trace s ++ [GetOpenAIClient; AssistantEnter; NewHandler; PreRunHook]
        ++ (OnMessageDone <$> messages (self s))
        ++ CreateAndStream (thread_id (thread (self s)))
             (assistant_id (assistant (self s))) (run_kwargs (self s))
        :: rest.
Proof.
  intros Hunset.
  rewrite (run_async_by_try_block E E_answers rounds s Hunset).
  destruct (run_body_sends_create rounds (run_kwargs (self s))
              (record NewHandler (record AssistantEnter (record GetOpenAIClient s))))
    as [rest1 Hbody].
  simpl in Hbody.
  destruct (run_body E rounds _ _) as [s2 [h|exc|]]; simpl in Hbody.
  - destruct (run (self s2)); simpl; eexists; rewrite Hbody;
      repeat rewrite <- app_assoc; simpl; by repeat rewrite <- app_assoc.
  - destruct (run_except_grows exc s2) as [rest2 Hrest2].
    destruct ((run_except E exc ;;; _) s2) as [s3 [[]|e|]]; simpl in *;
      eexists; rewrite Hrest2, Hbody;
      repeat rewrite <- app_assoc; simpl; by repeat rewrite <- app_assoc.
  - simpl. eexists. rewrite Hbody.
    repeat rewrite <- app_assoc. simpl. by repeat rewrite <- app_assoc.
Qed.
End Sends.

(** C7. The arguments of the streamed-run creation request hold an
    "instructions" entry exactly when [instructions] or
    [additional_instructions] is set, and then it is what
    [get_instructions] returns; they hold a "tools" entry exactly when
    [tools] or [additional_tools] is set, and then it is what
    [get_tools] returns; they hold nothing else.  Every creation
    request that [run_async] sends carries exactly these arguments; and
    [run_async] on a new run does send it, with these arguments and to
    the thread and assistant of the [Run], once the calls before it
    have returned. *)
Theorem run_kwargs_overrides :
  (∀ self,
     (is_Some (run_kwargs self !! "instructions")
      ↔ instructions self ≠ None ∨ additional_instructions self ≠ None)
     ∧ (is_Some (run_kwargs self !! "tools")
        ↔ tools self ≠ None ∨ additional_tools self ≠ None)
     ∧ run_kwargs self !! "instructions"
       = match instructions self, additional_instructions self with
         | None, None => None
         | _, _ => Some (KwInstructions (get_instructions self))
         end
     ∧ run_kwargs self !! "tools"
       = match tools self, additional_tools self with
         | None, None => None
         | _, _ => Some (KwTools (get_tools self))
         end
     ∧ ∀ k, k ≠ "instructions" → k ≠ "tools" → run_kwargs self !! k = None)
  ∧ (∀ E rounds s,
       ∃ new,
         trace (run_async E rounds s).1 = trace s ++ new
         ∧ ∀ t a kw, CreateAndStream t a kw ∈ new → kw = run_kwargs (self s))
  ∧ (∀ E rounds s,
       answers E →
       run (self s) = None →
       ∃ rest,
         trace (run_async E rounds s).1
         = trace s ++ [GetOpenAIClient; AssistantEnter; NewHandler; PreRunHook]
             ++ (OnMessageDone <$> messages (self s))
             ++ CreateAndStream (thread_id (thread (self s)))
                  (assistant_id (assistant (self s))) (run_kwargs (self s))
             :: rest).
Proof.
  split; [|split; [|intros E rounds s Hans; by apply run_async_sends_create]].
  - intros self.
    split; [|split; [|split; [apply run_kwargs_instructions|
                              split; [apply run_kwargs_tools|
                                      apply run_kwargs_other]]]].
    + rewrite run_kwargs_instructions.
      destruct (instructions self), (additional_instructions self); split;
        first [ by intros [? [=]] | by intros [?|?] | by eexists
              | by intros _; left | by intros _; right ].
    + rewrite run_kwargs_tools.
      destruct (tools self), (additional_tools self); split;
        first [ by intros [? [=]] | by intros [?|?] | by eexists
              | by intros _; left | by intros _; right ].
  - intros E rounds s.
    assert (∃ new, trace (run_async E rounds s).1 = trace s ++ new
              ∧ Forall (λ e, ∀ t a kw, e = CreateAndStream t a kw →
                               kw = run_kwargs (self s)) new)
      as (new & Htr & Hall).
    { unfold run_async, bind at 1, perform.
      destruct (failure E (trace s) GetOpenAIClient) as [msg|]; simpl.
      - exists [GetOpenAIClient]. split; [done|].
        apply Forall_singleton. by intros t a kw.
      - unfold bind at 1. simpl. destruct (run (self s)) as [r|].
        + exists [GetOpenAIClient]. split; [done|].
          apply Forall_singleton. by intros t a kw.
        + apply (run_async_rest_keeps E (trace s) (run_kwargs (self s)) rounds
                   (record GetOpenAIClient s)).
          exists [GetOpenAIClient]. split; [done|].
          apply Forall_singleton. by intros t a kw. }
    exists new. split; [done|]. intros t a kw Hin.
    eapply Forall_forall in Hall; [|exact Hin]. by eapply Hall.
Qed.

Lemma run_kwargs_overrides_witness :
  additional_instructions sample_self ≠ None
  ∧ is_Some (run_kwargs sample_self !! "instructions")
  ∧ ∃ rest,
      trace (run_async (sample_env sample_calls) 5 sample_state).1
      = [GetOpenAIClient; AssistantEnter; NewHandler; PreRunHook;
         OnMessageDone (mkMessage "msg_0" 10 "What is 1 + 2?");
         CreateAndStream "thread_1" "asst_1" (run_kwargs sample_self)]
        ++ rest.
Proof.
  split; [discriminate|]. split.
  - apply (proj1 (proj1 run_kwargs_overrides sample_self)).
    right. discriminate.
  - destruct (proj2 (proj2 run_kwargs_overrides) (sample_env sample_calls)
                5%nat sample_state (sample_env_answers sample_calls) eq_refl)
      as [rest Hrest].
    exists rest. exact Hrest.
Defined.

Lemma run_async_keeps_config_witness :
  instructions sample_self_replaced ≠ None
  ∧ get_instructions
      (self (run_async (sample_env sample_calls) 5
               (mkState sample_self_replaced [])).1)
    = "Only this.".
Proof.
  split; [discriminate|].
  rewrite (proj1 (proj2 (run_async_keeps_config (sample_env sample_calls) 5
                           (mkState sample_self_replaced [])))).
  - reflexivity.
  - discriminate.
Defined.

(** * Inputs on which two statements of the behaviour fail *)


